(** * Compiler.ts: the incremental Solidity build orchestrator

    A shallow embedding of [src/scripts/Compiler.ts] and the properties of
    its staleness decision, artifact merge, version extraction, diagnostic
    normalisation and import resolution.

    Conventions of the embedding.
    - A JavaScript string is a [string]; its code units are the 8-bit
      characters of [ascii] (the Latin-1 range of UTF-16).  Functions that
      scan a string work on its list of characters ([chars]).
    - A JavaScript object used as a map is a [gmap string _] of its own
      enumerable properties.
    - A JavaScript number is an integer, a [Z].
    - A thrown exception is the [Throw] case of [result]; a promise that
      rejects is a callback that ends in [Rejected].
    - The runtime and the libraries the file imports (regular expressions,
      [String.prototype.replace], [path.basename], [JSON], the file system,
      the event loop) are modelled by what they do on the calls the file
      makes; [keccak], the table [binPaths], the module loader and the
      compiler binaries are parameters. *)

From Stdlib Require Import ZArith Ascii String List.
From stdpp Require Import base option list gmap strings pretty fin_maps.

(** ** Strings as character lists *)

Definition chars (s : string) : list ascii := list_ascii_of_string s.
Definition text_of (l : list ascii) : string := string_of_list_ascii l.

(** [starts_with p s] is the rest of [s] after the prefix [p], if [s] starts
    with [p]. *)
Fixpoint starts_with (p s : list ascii) : option (list ascii) :=
  match p, s with
  | [], _ => Some s
  | a :: p', b :: s' => if Ascii.eqb a b then starts_with p' s' else None
  | _ :: _, [] => None
  end.

(** [find_first p s]: the text before and after the first occurrence of [p]
    in [s] ([String.prototype.indexOf]). *)
Fixpoint find_first (p s : list ascii) : option (list ascii * list ascii) :=
  match starts_with p s with
  | Some rest => Some ([], rest)
  | None =>
      match s with
      | [] => None
      | c :: s' =>
          match find_first p s' with
          | Some (before, after) => Some (c :: before, after)
          | None => None
          end
      end
  end.

Fixpoint take_while (p : ascii → bool) (l : list ascii) : list ascii :=
  match l with
  | c :: l' => if p c then c :: take_while p l' else []
  | [] => []
  end.

Fixpoint drop_while (p : ascii → bool) (l : list ascii) : list ascii :=
  match l with
  | c :: l' => if p c then drop_while p l' else l
  | [] => []
  end.

(** ** Exceptions *)

Inductive error : Type :=
| TypeError                       (* property read of undefined or null *)
| SyntaxError                     (* JSON.parse of a text that is not JSON *)
| ModuleNotFound (path : string)  (* require of a path with no module *)
| Error (message : string).       (* new Error(message) *)

Inductive result (A : Type) : Type :=
| OK (a : A)
| Throw (e : error).
Arguments OK {A} a.
Arguments Throw {A} e.

(** Sequencing: a statement that throws ends the block it is in. *)
Global Instance result_ret : MRet result := λ A a, OK a.
Global Instance result_bind : MBind result := λ A B k r,
  match r with
  | OK a => k a
  | Throw e => Throw e
  end.

(** ** Regular expressions

    The fragment of JavaScript regular expressions the file uses, with the
    backtracking order of the runtime: [exec r s] lists every way [r] can
    match a prefix of [s], most preferred first, as the captured groups and
    the rest of the input. *)

Inductive regex : Type :=
| Eps
| Lit (c : ascii)                      (* a literal character *)
| Class (p : ascii → bool)             (* a character class *)
| Seq (r1 r2 : regex)
| Quant (r : regex) (lo hi : nat)      (* r{lo,hi}, greedy *)
| Star (p : ascii → bool)              (* class*, greedy *)
| Group (r : regex).                   (* ( r ), capturing *)

Definition captures : Type := list (list ascii).

Fixpoint star_rests (p : ascii → bool) (s : list ascii) : list (list ascii) :=
  match s with
  | c :: s' => if p c then star_rests p s' ++ [s] else [s]
  | [] => [[]]
  end.

Definition seq_results (first : list (captures * list ascii))
    (next : list ascii → list (captures * list ascii)) :
    list (captures * list ascii) :=
  flat_map (λ cr1, map (λ cr2, (cr1.1 ++ cr2.1, cr2.2)) (next cr1.2)) first.

Fixpoint exec (r : regex) (s : list ascii) : list (captures * list ascii) :=
  match r with
  | Eps => [([], s)]
  | Lit c =>
      match s with
      | a :: s' => if Ascii.eqb c a then [([], s')] else []
      | [] => []
      end
  | Class p =>
      match s with
      | a :: s' => if p a then [([], s')] else []
      | [] => []
      end
  | Seq r1 r2 => seq_results (exec r1 s) (exec r2)
  | Quant r lo hi =>
      (fix rep (lo hi : nat) (s : list ascii) {struct hi} :=
         match hi with
         | 0 => []
         | S hi' => seq_results (exec r s) (rep (pred lo) hi')
         end ++ (if lo is 0 then [([], s)] else [])) lo hi s
  | Star p => map (λ rest, ([], rest)) (star_rests p s)
  | Group r =>
      map (λ cr, (take (length s - length cr.2) s :: cr.1, cr.2)) (exec r s)
  end.

(** The words a regular expression matches, with the groups it captures. *)
Inductive lang : regex → list ascii → captures → Prop :=
| lang_Eps : lang Eps [] []
| lang_Lit c : lang (Lit c) [c] []
| lang_Class p c : p c = true → lang (Class p) [c] []
| lang_Seq r1 r2 w1 w2 c1 c2 :
    lang r1 w1 c1 → lang r2 w2 c2 → lang (Seq r1 r2) (w1 ++ w2) (c1 ++ c2)
| lang_Quant_stop r hi : lang (Quant r 0 hi) [] []
| lang_Quant_more r lo hi w1 w2 c1 c2 :
    lang r w1 c1 → lang (Quant r (pred lo) hi) w2 c2 →
    lang (Quant r lo (S hi)) (w1 ++ w2) (c1 ++ c2)
| lang_Star p w : Forall (λ c, p c = true) w → lang (Star p) w []
| lang_Group r w c : lang r w c → lang (Group r) w (w :: c).

Fixpoint lit (l : list ascii) : regex :=
  match l with
  | [] => Eps
  | c :: l' => Seq (Lit c) (lit l')
  end.

(** The array [String.prototype.match] returns for a regular expression
    without the [g] flag: element 0 is the matched text, element [n] the
    text of group [n]. *)
Record match_array : Type := MatchArray {
  index : nat;
  matched : list ascii;
  groups : captures
}.

Fixpoint search (r : regex) (s : list ascii) (i : nat) : option match_array :=
  match exec r s with
  | (caps, rest) :: _ =>
      Some (MatchArray i (take (length s - length rest) s) caps)
  | [] =>
      match s with
      | [] => None
      | _ :: s' => search r s' (S i)
      end
  end.

Definition str_match (s : string) (r : regex) : option match_array :=
  search r (chars s) 0.

(** Element [n] of a match array, as the property read [m[n]] gives it: a
    read on [null] (no match) throws. *)
Definition match_elem (m : option match_array) (n : nat) : result (list ascii) :=
  match m with
  | None => Throw TypeError
  | Some a =>
      match (matched a :: groups a) !! n with
      | Some t => OK t
      | None => Throw TypeError
      end
  end.

(** Character classes: [\s], [[0-9]], [.]. *)
Definition code (c : ascii) : N := N_of_ascii c.

Definition is_space (c : ascii) : bool :=
  bool_decide (code c ∈ [9; 10; 11; 12; 13; 32; 160]%N).

Definition is_digit (c : ascii) : bool :=
  (48 <=? code c)%N && (code c <=? 57)%N.

Definition is_line_terminator (c : ascii) : bool :=
  bool_decide (code c ∈ [10; 13]%N).

Definition any_char (c : ascii) : bool := negb (is_line_terminator c).

(** ** parseSolidityVersion (lines 186-193) *)

(** [/(?:solidity\s\^?)([0-9]{1,2}[.][0-9]{1,2}[.][0-9]{1,2})/] *)
Definition version_token : regex :=
  Seq (Quant (Class is_digit) 1 2)
    (Seq (Lit ".")
       (Seq (Quant (Class is_digit) 1 2)
          (Seq (Lit ".") (Quant (Class is_digit) 1 2)))).

Definition version_regex : regex :=
  Seq (Seq (lit (chars "solidity")) (Seq (Class is_space) (Quant (Lit "^") 0 1)))
      (Group version_token).

Definition VersionNotFound : error :=
  Error "Could not find Solidity version in source".

Definition parseSolidityVersion (source : string) : result string :=
  match match_elem (str_match source version_regex) 1 with
  | OK solcVersion => OK (text_of solcVersion)
  | Throw _ => Throw VersionNotFound
  end.

(** ** path.basename (POSIX) *)

Definition is_slash (c : ascii) : bool := Ascii.eqb c "/".

(** Trailing separators are ignored; the result is the last portion. *)
Definition basename_chars (p : list ascii) : list ascii :=
  rev (take_while (λ c, negb (is_slash c)) (drop_while is_slash (rev p))).

Definition basename (p : string) : string := text_of (basename_chars (chars p)).

(** [path.basename(p, ext)]: the extension is removed when the last portion
    ends with it and is more than the extension alone; a path that is the
    extension itself has an empty base name. *)
Definition basename_ext (p ext : string) : string :=
  if decide (p = ext) then ""
  else
    let b := basename_chars (chars p) in
    match starts_with (rev (chars ext)) (rev b) with
    | Some ((_ :: _) as stem) => text_of (rev stem)
    | _ => text_of b
    end.

(** ** String.prototype.replace with a string pattern *)

(** The replacement text is expanded: [$$] is a dollar sign, [$&] the matched
    text, [$`] the text before the match and [$'] the text after it; a
    string pattern has no groups, and any other dollar sign stands for
    itself. *)
Fixpoint expand (m before after repl : list ascii) : list ascii :=
  match repl with
  | [] => []
  | c :: r =>
      if Ascii.eqb c "$" then
        match r with
        | d :: r' =>
            if Ascii.eqb d "$" then "$"%char :: expand m before after r'
            else if Ascii.eqb d "&" then m ++ expand m before after r'
            else if Ascii.eqb d "`" then before ++ expand m before after r'
            else if Ascii.eqb d "'" then after ++ expand m before after r'
            else c :: expand m before after r
        | [] => [c]
        end
      else c :: expand m before after r
  end.

Definition replace_chars (s pat repl : list ascii) : list ascii :=
  match find_first pat s with
  | Some (before, after) => before ++ expand pat before after repl ++ after
  | None => s
  end.

(** ** getNormalizedErrMsg (lines 201-211) *)

(** [/(.*\.sol)/] *)
Definition path_regex : regex :=
  Group (Seq (Star any_char) (lit (chars ".sol"))).

Definition NoPathInMessage : error :=
  Error "Could not find a path in error message".

Definition getNormalizedErrMsg (errMsg : string) : result string :=
  match match_elem (str_match errMsg path_regex) 0 with
  | OK errPath =>
      let baseContract := basename_chars errPath in
      OK (text_of (replace_chars (chars errMsg) errPath baseContract))
  | Throw _ => Throw NoPathInMessage
  end.

(** ** JSON values and property reads *)

#[local] Set Warnings "-register-all".
Inductive json : Type :=
| JNull
| JBool (b : bool)
| JNum (n : Z)
| JStr (s : string)
| JArr (l : list json)
| JObj (m : gmap string json).

(** A JavaScript value of the file is a JSON value or [undefined]: an
    [option json], [None] being [undefined]. *)

(** A text is represented by what [JSON.parse] makes of it: the text of a
    JSON value, or any other text, on which [JSON.parse] throws.
    [JSON.stringify] of a value is a text that parses back to it. *)
Inductive text : Type :=
| JsonText (j : json)
| OtherText (s : string).

Definition JSON_parse (t : text) : result json :=
  match t with
  | JsonText j => OK j
  | OtherText _ => Throw SyntaxError
  end.

Definition JSON_stringify (j : json) : text := JsonText j.

(** The indexed properties of an array or of a string. *)
Definition index_props (l : list json) : gmap string json :=
  list_to_map (imap (λ i v, (pretty i, v)) l).

Definition char_values (s : string) : list json :=
  (λ c, JStr (String c EmptyString)) <$> chars s.

(** The own enumerable properties of a value: what [{...v}] copies. *)
Definition own_props (v : json) : gmap string json :=
  match v with
  | JObj m => m
  | JArr l => index_props l
  | JStr s => index_props (char_values s)
  | _ => ∅
  end.

(** [{...v}], as the compiler of the repository emits it: [Object.assign]
    onto a new object, which assigns each own enumerable property of [v].
    [undefined] and [null] spread to nothing.  An own property [__proto__]
    of [v] is not copied: assigning to [__proto__] sets the prototype of the
    new object, or does nothing, and makes no own property, and
    [JSON.stringify] writes own properties only. *)
Definition spread (v : option json) : gmap string json :=
  match v with
  | Some j => delete "__proto__" (own_props j)
  | None => ∅
  end.

(** The property read [v[k]] (or [v.k]), for the keys the file reads on a
    parsed artifact ([networks], the key of the target, [keccak256],
    [optimizer_enabled]), none of which names a member a value inherits: it
    throws on [undefined] and [null]; a missing property reads as
    [undefined]. *)
Definition get (v : option json) (k : string) : result (option json) :=
  match v with
  | None | Some JNull => Throw TypeError
  | Some (JArr l) =>
      OK (if decide (k = "length") then Some (JNum (Z.of_nat (length l)))
          else index_props l !! k)
  | Some (JStr s) =>
      OK (if decide (k = "length") then Some (JNum (Z.of_nat (length (chars s))))
          else index_props (char_values s) !! k)
  | Some j => OK (own_props j !! k)
  end.

(** [v !== s] for a string [s], and [v !== n] for a number [n]. *)
Definition strict_neq_string (v : option json) (s : string) : bool :=
  match v with
  | Some (JStr s') => negb (String.eqb s' s)
  | _ => true
  end.

Definition strict_neq_number (v : option json) (n : Z) : bool :=
  match v with
  | Some (JNum n') => negb (n' =? n)%Z
  | _ => true
  end.

(** [`${v}`] for a string or [undefined]. *)
Definition interpolate (v : option string) : string := default "undefined" v.

(** ** The compiler backend and its callback *)

(** What a property read on the object [sources] gives, when it is not
    [undefined]: the text of a source, or a member the object inherits. *)
Inductive property : Type :=
| Text (source : string)
| Member (name : string).

Record ImportContents : Type := { contents : option property }.

Record ContractOutput : Type := { interface : text; bytecode : string }.

(** The object [solcInstance.compile] returns. *)
Record Compiled : Type := {
  compiled_errors : option (list string);
  compiled_contracts : option (gmap string ContractOutput)
}.

(** [solcInstance.compile(sourcesToCompile, optimizerEnabled, findImports)]. *)
Definition Backend : Type :=
  gmap string string → Z → (string → ImportContents) → Compiled.

Record CompilerOptions : Type := {
  contractsDir : string;
  networkId : Z;
  optimizerEnabled : Z;
  artifactsDir : string
}.

(** ** createFindImports (lines 217-227) *)

(** The names of the members every object inherits from [Object.prototype]. *)
Definition object_members : list string :=
  ["constructor"; "hasOwnProperty"; "isPrototypeOf"; "propertyIsEnumerable";
   "toLocaleString"; "toString"; "valueOf"; "__proto__";
   "__defineGetter__"; "__defineSetter__"; "__lookupGetter__"; "__lookupSetter__"].

(** The property read [sources[name]] on the object [getContractSources]
    returns, whose own properties are the entries of the mapping: the value
    of the own property of that name or, when there is none, the member of
    that name the object inherits; [undefined] when there is neither. *)
Definition read_source (sources : gmap string string) (name : string) :
    option property :=
  match sources !! name with
  | Some source => Some (Text source)
  | None => if decide (name ∈ object_members) then Some (Member name) else None
  end.

(** The closure keeps the [sources] object it was created with; a call
    returns its result and the object as the call leaves it. *)
Definition findImports (sources : gmap string string) (importPath : string) :
    ImportContents * gmap string string :=
  let contractBaseName := basename importPath in
  let source := read_source sources contractBaseName in
  let importContents := {| contents := source |} in
  (importContents, sources).

Definition createFindImports (sources : gmap string string) :
    string → ImportContents :=
  λ importPath, (findImports sources importPath).1.

(** ** path.extname (POSIX) *)

Definition is_dot (c : ascii) : bool := Ascii.eqb c ".".

(** From the last dot of the last portion of the path to its end; empty when
    there is no dot, when the dot is the first character of the portion, and
    for the portion [..]. *)
Definition extname (p : string) : string :=
  let b := basename_chars (chars p) in
  let ext := take_while (λ c, negb (is_dot c)) (rev b) in
  match drop_while (λ c, negb (is_dot c)) (rev b) with
  | [] => ""
  | _ :: [] => ""
  | dot :: _ :: _ =>
      if decide (b = chars "..") then "" else text_of (dot :: rev ext)
  end.

(** ** getContractSources (lines 147-180) *)

(** What is at a path of the contracts directory: a file, with its text when
    it can be read, or a directory, with its entries in the order [readdir]
    lists them. *)
Inductive node : Type :=
| File (content : option string)
| Directory (entries : listing)
with listing : Type :=
| NoEntry
| Entry (name : string) (child : node) (rest : listing).

Scheme node_listing_ind := Induction for node Sort Prop
  with listing_node_ind := Induction for listing Sort Prop.

(** [getContractSources dirPath dir] is the mapping the function returns and
    the lines it logs; [visit] is its loop over the entries, from the sources
    and the lines so far. *)
Fixpoint getContractSources (dirPath : string) (dir : node) :
    result (gmap string string * list string) :=
  match dir with
  | File _ => Throw (Error ("No directory found at " +:+ dirPath))
  | Directory dirContents => OK (visit dirPath dirContents ∅ [])
  end
with visit (dirPath : string) (dirContents : listing)
    (sources : gmap string string) (log : list string) :
    gmap string string * list string :=
  match dirContents with
  | NoEntry => (sources, log)
  | Entry name child rest =>
      let contentPath := dirPath +:+ "/" +:+ name in
      if decide (extname name = ".sol") then
        match child with
        | File (Some source) =>
            visit dirPath rest (<[name := source]> sources)
              (log ++ ["Reading " +:+ name +:+ " source..."])
        | _ =>
            visit dirPath rest sources
              (log ++ ["Could not find file at " +:+ contentPath])
        end
      else
        match getContractSources contentPath child with
        | OK (nestedSources, lines) =>
            visit dirPath rest (nestedSources ∪ sources) (log ++ lines)
        | Throw _ =>
            visit dirPath rest sources
              (log ++ [contentPath +:+ " is not a directory or .sol file"])
        end
  end.

(** ** compileAll (lines 46-141) *)

(** What one unit's callback has assigned when the [try] block (lines 64-77)
    is left. *)
Record locals : Type := Locals {
  currentArtifactString : option text;
  currentArtifact : option json;
  oldNetworks : option json;
  shouldCompile : bool
}.

(** What the console and the backend see, in order. *)
Inductive event : Type :=
| Compiling (contractBaseName : string)    (* line 89 *)
| Invoked (contractBaseName : string)      (* line 93: solcInstance.compile *)
| Diagnostic (normalizedErrMsg : string)   (* line 100 *)
| Saved (contractBaseName : string).       (* line 138 *)

(** Where a unit's callback is: suspended at one of its two [await]s, or
    settled. *)
Inductive task : Type :=
| AwaitRead (contractBaseName source : string)                (* line 68 *)
| AwaitWrite (contractBaseName path : string) (data : text)   (* line 137 *)
| Resolved
| Rejected (e : error).

(** The artifact files, the [errors] object of the run, the events so far
    and the callbacks of the run.  Reading a path fails when no file is
    there; writing a file succeeds. *)
Record state : Type := State {
  fs : gmap string text;
  errors : gset string;
  trace : list event;
  tasks : list task
}.

(** The diagnostics the console received, in order. *)
Definition diagnostics (tr : list event) : list string :=
  omap (λ e, match e with Diagnostic msg => Some msg | _ => None end) tr.

(** The console has received no diagnostic twice, and the [errors] object
    holds every diagnostic it has received. *)
Definition reported_once (errs : gset string) (tr : list event) : Prop :=
  NoDup (diagnostics tr) ∧ ∀ msg, msg ∈ diagnostics tr → msg ∈ errs.

(** The units the backend was invoked for, in order. *)
Definition invocations (tr : list event) : list string :=
  omap (λ e, match e with Invoked name => Some name | _ => None end) tr.

Section Orchestrator.

(** [keccak source] is [ethUtil.sha3(source).toString('hex')]. *)
Variable keccak : string → string.
(** The table of [./solc/bin_paths]. *)
Variable binPaths : gmap string string.
(** [require(path)]: the compiler the module at [path] holds, if any. *)
Variable require : string → option Backend.

Variable options : CompilerOptions.
(** The result of [getContractSources(contractsDir)]. *)
Variable sources : gmap string string.

(** The key of the target in [networks]: the decimal numeral of the network
    id, which is how an integer below 10^21 in magnitude prints as a property
    key. *)
Definition networkKey : string := pretty (networkId options).

Definition artifactPath (contractBaseName : string) : string :=
  artifactsDir options +:+ "/" +:+ basename_ext contractBaseName ".sol" +:+ ".json".

Definition sourceHashOf (source : string) : string := "0x" +:+ keccak source.

(** Lines 72-74. *)
Definition stale (oldNetwork : option json) (sourceHash : string) : result bool :=
  match oldNetwork with
  | None => OK true
  | Some _ =>
      k ← get oldNetwork "keccak256";
      if strict_neq_string k sourceHash then OK true
      else
        o ← get oldNetwork "optimizer_enabled";
        OK (strict_neq_number o (optimizerEnabled options))
  end.

(** Lines 60-77, from the outcome of [readFileAsync]: [None] when it rejects.
    A statement that throws leaves the variables after it unassigned and
    sets [shouldCompile]. *)
Definition decide_compile (read : option text) (sourceHash : string) : locals :=
  match read with
  | None => Locals None None None true
  | Some str =>
      match JSON_parse str with
      | Throw _ => Locals (Some str) None None true
      | OK artifact =>
          match get (Some artifact) "networks" with
          | Throw _ => Locals (Some str) (Some artifact) None true
          | OK networks =>
              match oldNetwork ← get networks networkKey; stale oldNetwork sourceHash with
              | Throw _ => Locals (Some str) (Some artifact) networks true
              | OK b => Locals (Some str) (Some artifact) networks b
              end
          end
      end
  end.

(** Lines 83-87. *)
Definition select_backend (source : string) : result (string * Backend) :=
  solcVersion ← parseSolidityVersion source;
  let fullSolcVersion := binPaths !! solcVersion in
  let solcBinPath := "./solc/solc_bin/" +:+ interpolate fullSolcVersion in
  match require solcBinPath with
  | Some solcBin => OK (solcVersion, solcBin)
  | None => Throw (ModuleNotFound solcBinPath)
  end.

(** Lines 96-102, over the messages of [compiled.errors]: the [errors]
    object and the console as the loop leaves them, also when it throws. *)
Fixpoint report (msgs : list string) (errs : gset string) (tr : list event) :
    gset string * list event * result unit :=
  match msgs with
  | [] => (errs, tr, OK ())
  | errMsg :: msgs' =>
      match getNormalizedErrMsg errMsg with
      | Throw e => (errs, tr, Throw e)
      | OK normalizedErrMsg =>
          if decide (normalizedErrMsg ∈ errs) then report msgs' errs tr
          else report msgs' ({[normalizedErrMsg]} ∪ errs)
                 (tr ++ [Diagnostic normalizedErrMsg])
      end
  end.

(** Lines 109-116. *)
Definition contractData (solcVersion sourceHash : string) (abi : json)
    (unlinked_binary : string) (updated_at : Z) : json :=
  JObj (<["solc_version" := JStr solcVersion]>
       (<["keccak256" := JStr sourceHash]>
       (<["optimizer_enabled" := JNum (optimizerEnabled options)]>
       (<["abi" := abi]>
       (<["unlinked_binary" := JStr unlinked_binary]>
       (<["updated_at" := JNum updated_at]> ∅)))))).

(** Lines 118-134. *)
Definition merge (lc : locals) (contractName : string) (data : json) : json :=
  match currentArtifactString lc with
  | Some _ =>
      JObj (<["networks" := JObj (<[networkKey := data]> (spread (oldNetworks lc)))]>
              (spread (currentArtifact lc)))
  | None =>
      JObj (<["contract_name" := JStr contractName]>
           (<["networks" := JObj (<[networkKey := data]> ∅)]> ∅))
  end.

(** Lines 105-136. *)
Definition build_artifact (now : Z) (contractBaseName sourceHash solcVersion : string)
    (compiled : Compiled) (lc : locals) : result text :=
  let contractName := basename_ext contractBaseName ".sol" in
  let contractIdentifier := contractBaseName +:+ ":" +:+ contractName in
  outputs ← from_option OK (Throw TypeError) (compiled_contracts compiled);
  output ← from_option OK (Throw TypeError) (outputs !! contractIdentifier);
  abi ← JSON_parse (interface output);
  let unlinked_binary := "0x" +:+ bytecode output in
  let data := contractData solcVersion sourceHash abi unlinked_binary now in
  OK (JSON_stringify (merge lc contractName data)).

(** Lines 79-137, for a unit that is to be compiled: the [errors] object and
    the events as the block leaves them, and the text handed to
    [writeFileAsync] or the exception that ends the callback. *)
Definition compile_unit (now : Z) (contractBaseName source sourceHash : string)
    (lc : locals) (errs : gset string) (tr : list event) :
    gset string * list event * result text :=
  match select_backend source with
  | Throw e => (errs, tr, Throw e)
  | OK (solcVersion, solcBin) =>
      let input : gmap string string := {[contractBaseName := source]} in
      let tr := tr ++ [Compiling contractBaseName; Invoked contractBaseName] in
      let compiled := solcBin input (optimizerEnabled options) (createFindImports sources) in
      let '(errs, tr, reported) :=
        match compiled_errors compiled with
        | Some msgs => report msgs errs tr
        | None => (errs, tr, OK ())
        end in
      (errs, tr,
       _ ← reported;
       build_artifact now contractBaseName sourceHash solcVersion compiled lc)
  end.

(** Callback [i] of a run, put at [t]. *)
Definition settle (i : nat) (t : task) (st : state) : state :=
  State (fs st) (errors st) (trace st) (<[i := t]> (tasks st)).

(** One turn of the event loop: the pending operation of callback [i]
    completes and the callback runs to its next [await] or to its end.
    [now] is what [Date.now()] returns during the turn. *)
Definition step (i : nat) (now : Z) (st : state) : state :=
  match tasks st !! i with
  | Some (AwaitRead contractBaseName source) =>
      let path := artifactPath contractBaseName in
      let sourceHash := sourceHashOf source in
      let lc := decide_compile (fs st !! path) sourceHash in
      if shouldCompile lc then
        match compile_unit now contractBaseName source sourceHash lc
                (errors st) (trace st) with
        | (errs, tr, OK artifactString) =>
            State (fs st) errs tr
              (<[i := AwaitWrite contractBaseName path artifactString]> (tasks st))
        | (errs, tr, Throw e) =>
            State (fs st) errs tr (<[i := Rejected e]> (tasks st))
        end
      else settle i Resolved st
  | Some (AwaitWrite contractBaseName path data) =>
      State (<[path := data]> (fs st)) (errors st)
        (trace st ++ [Saved contractBaseName]) (<[i := Resolved]> (tasks st))
  | _ => st
  end.

(** The state when the promise of [compileAll] resolves: [_.each] has called
    the callback of every unit, and each has run to its first [await]. *)
Definition compileAll (files : gmap string text) : state :=
  State files ∅ []
    ((λ unit, AwaitRead unit.1 unit.2) <$> map_to_list sources).

(** The turns of the event loop after that, in any order. *)
Definition run (schedule : list (nat * Z)) (st : state) : state :=
  foldl (λ st turn, step turn.1 turn.2 st) st schedule.

(** *** What a run maintains *)

(** The artifact file of a unit is up to date: the [try] block, run on it,
    decides not to compile. *)
Definition fresh (files : gmap string text) (name source : string) : Prop :=
  shouldCompile (decide_compile (files !! artifactPath name) (sourceHashOf source)) = false.

(** What holds of the callback of the unit [name], for a set [good] of units
    whose artifact files are up to date. *)
Definition task_inv (good : string → Prop) (files : gmap string text)
    (name source : string) (t : task) : Prop :=
  match t with
  | AwaitRead n s => n = name ∧ s = source
  | AwaitWrite n path data =>
      n = name ∧ path = artifactPath name ∧ ¬ good name
      ∧ shouldCompile (decide_compile (Some data) (sourceHashOf source)) = false
  | Resolved => fresh files name source
  | Rejected _ => True
  end.

Definition run_inv (good : string → Prop) (st : state) : Prop :=
  length (tasks st) = length (map_to_list sources)
  ∧ (∀ i t, tasks st !! i = Some t →
     ∃ name source, map_to_list sources !! i = Some (name, source)
       ∧ task_inv good (fs st) name source t)
  ∧ (∀ name source, sources !! name = Some source → good name →
       fresh (fs st) name source ∧ name ∉ invocations (trace st))
  ∧ (∀ name, name ∈ invocations (trace st) → is_Some (sources !! name)).

End Orchestrator.

(** ** Diagnostics, in the words of the specification *)

(** A directory prefix: on one line, and empty or ending with a separator. *)
Definition is_dir_prefix (dir : string) : Prop :=
  Forall (λ c, any_char c = true) (chars dir)
  ∧ (dir = "" ∨ ∃ dir', dir = dir' +:+ "/").

Definition no_dollar (l : list ascii) : Prop :=
  Forall (λ c, Ascii.eqb c "$" = false) l.

(** ** File names *)

(** A file name: not empty and without a separator. *)
Definition is_file_name (name : string) : Prop :=
  name ≠ "" ∧ Forall (λ c, is_slash c = false) (chars name).

(** The name of a source file, as [getContractSources] keeps them: a file
    name with the extension [.sol]. *)
Definition is_sol_name (name : string) : Prop :=
  ∃ stem, name = stem +:+ ".sol" ∧ is_file_name stem.

(** Every entry of the tree has a file name. *)
Fixpoint named (dir : node) : Prop :=
  match dir with
  | File _ => True
  | Directory entries => named_entries entries
  end
with named_entries (entries : listing) : Prop :=
  match entries with
  | NoEntry => True
  | Entry name child rest => is_file_name name ∧ named child ∧ named_entries rest
  end.

(** ** Runs *)

(** Every callback of the run has ended. *)
Definition settled (st : state) : Prop :=
  Forall (λ t, t = Resolved ∨ ∃ e, t = Rejected e) (tasks st).

(** ** The artifact record, as a file holds it *)

(** The entry of a target in an artifact: [networks[target]]. *)
Definition byTarget (artifact : json) (target : Z) : option json :=
  networks ← own_props artifact !! "networks"; own_props networks !! pretty target.

(** The top-level fields of an artifact file; a file that is not JSON has
    none. *)
Definition top_level (file : text) : gmap string json :=
  match file with
  | JsonText artifact => own_props artifact
  | OtherText _ => ∅
  end.

(** The record entry for a unit and a target, from the outcome of reading
    the unit's artifact file: a file that cannot be read or parsed holds no
    record. *)
Definition record_entry (read : option text) (target : Z) : option json :=
  match read with
  | Some (JsonText artifact) => byTarget artifact target
  | _ => None
  end.

(** ** Version declarations, in the words of the specification *)

(** One or two digits. *)
Definition digits12 (l : list ascii) : Prop :=
  (length l = 1 ∨ length l = 2) ∧ Forall (λ c, is_digit c = true) l.

(** [<major>.<minor>.<patch>]. *)
Definition is_version (v : list ascii) : Prop :=
  ∃ major minor patch,
    v = major ++ "."%char :: minor ++ "."%char :: patch
    ∧ digits12 major ∧ digits12 minor ∧ digits12 patch.

(** The word [solidity], a white-space character, an optional caret and a
    version. *)
Definition is_declaration (d v : list ascii) : Prop :=
  ∃ space caret,
    d = chars "solidity" ++ space :: caret ++ v
    ∧ is_space space = true
    ∧ (caret = [] ∨ caret = ["^"%char])
    ∧ is_version v.

(** The source holds a declaration of version [v]; nothing is said of what
    follows [v] in the source, which may be more digits. *)
Definition declares (source v : string) : Prop :=
  ∃ before d after,
    chars source = before ++ d ++ after ∧ is_declaration d (chars v).


(** A source with one occurrence of the word [solidity], followed by a
    white-space character, an optional caret and three components with dots
    between them. *)
Definition sole_declaration (source : string) (major minor patch : list ascii) : Prop :=
  ∃ before space caret after,
    chars source = before ++ chars "solidity" ++ space :: caret
                     ++ major ++ "."%char :: minor ++ "."%char :: patch ++ after
    ∧ (caret = [] ∨ caret = ["^"%char])
    ∧ ∀ b a, chars source = b ++ chars "solidity" ++ a → b = before.

(** The staleness condition on the record entry of a unit and a target: there
    is no entry, or its digest is not the digest of the source, or its
    optimizer flag is not the requested one. *)
Definition stale_entry (options : CompilerOptions) (entry : option json)
    (sourceHash : string) : Prop :=
  match entry with
  | None => True
  | Some e =>
      own_props e !! "keccak256" ≠ Some (JStr sourceHash)
      ∨ own_props e !! "optimizer_enabled" ≠ Some (JNum (optimizerEnabled options))
  end.

(** ** A sample project

    One backend, registered for version 4.11.0: it compiles every source
    that contains the word [contract] and reports the others. *)

Definition sample_keccak (source : string) : string := source.

Definition sample_binPaths : gmap string string :=
  {[ "4.11.0" := "soljson-v4.11.0.js" ]}.

Definition sample_solc : Backend := λ input optimizer findImports,
  let compile (unit : string * string) : option (string * ContractOutput) :=
    match find_first (chars "contract") (chars unit.2) with
    | Some _ =>
        Some (unit.1 +:+ ":" +:+ basename_ext unit.1 ".sol",
              {| interface := JsonText (JArr []); bytecode := "6060" |})
    | None => None
    end in
  let failed := filter (λ unit, compile unit = None) (map_to_list input) in
  {| compiled_errors :=
       match failed with
       | [] => None
       | _ => Some ((λ unit, "lib/" +:+ unit.1 +:+ ":1: Error: nothing to compile") <$> failed)
       end;
     compiled_contracts := Some (list_to_map (omap compile (map_to_list input))) |}.

Definition sample_require (path : string) : option Backend :=
  if decide (path = "./solc/solc_bin/soljson-v4.11.0.js") then Some sample_solc
  else None.

Definition sample_options : CompilerOptions :=
  {| contractsDir := "contracts"; networkId := 50; optimizerEnabled := 0;
     artifactsDir := "artifacts" |}.

Definition sample_source : string := "pragma solidity ^4.11.0; contract Foo {}".

Definition sample_sources : gmap string string := {[ "Foo.sol" := sample_source ]}.

(** The contracts directory: the file [Foo.sol]. *)
Definition sample_tree : node :=
  Directory (Entry "Foo.sol" (File (Some sample_source)) NoEntry).

Definition sample_step := step sample_keccak sample_binPaths sample_require sample_options sample_sources.


Definition sample_run :=
  run sample_keccak sample_binPaths sample_require sample_options sample_sources.

(** An artifact of [Foo.sol] that holds an entry for target 1 only. *)
Definition sample_prior : json :=
  JObj (<["contract_name" := JStr "Foo"]>
       (<["networks" :=
            JObj (<["1" := JObj (<["keccak256" := JStr "0xabc"]>
                                (<["optimizer_enabled" := JNum 1]> ∅))]> ∅)]> ∅)).

Definition sample_files : gmap string text :=
  {[ "artifacts/Foo.json" := JsonText sample_prior ]}.

(** What the callback of [Foo.sol] hands to [writeFileAsync] in a run over
    [sample_files]. *)
Definition sample_written : text :=
  match tasks (sample_step 0 7 (compileAll sample_sources sample_files)) !! 0 with
  | Some (AwaitWrite _ _ data) => data
  | _ => OtherText ""
  end.

(** An artifact of [Foo.sol] with a field [__proto__], as [JSON.parse] makes
    of the text [{"contract_name": "Foo", "__proto__": {"version": 1},
    "networks": {}}]. *)
Definition proto_prior : json :=
  JObj (<["contract_name" := JStr "Foo"]>
       (<["__proto__" := JObj {[ "version" := JNum 1 ]}]>
       (<["networks" := JObj ∅]> ∅))).

Definition proto_files : gmap string text :=
  {[ "artifacts/Foo.json" := JsonText proto_prior ]}.

Definition proto_written : text :=
  match tasks (sample_step 0 7 (compileAll sample_sources proto_files)) !! 0 with
  | Some (AwaitWrite _ _ data) => data
  | _ => OtherText ""
  end.



(** A loader that finds a module at the path built from a missing table
    entry. *)
Definition stray_require (path : string) : option Backend :=
  if decide (path = "./solc/solc_bin/undefined") then Some sample_solc else None.

(** Two units, one of them for a version without a backend. *)
Definition mixed_sources : gmap string string :=
  {[ "Baz.sol" := "pragma solidity ^4.8.0; contract Baz {}";
     "Foo.sol" := sample_source ]}.

Definition mixed_step :=
  step sample_keccak sample_binPaths sample_require sample_options mixed_sources.

(** A unit that holds no contract: the backend has no output for it. *)
Definition failing_sources : gmap string string :=
  {[ "Imports.sol" := "pragma solidity ^4.11.0; import './Foo.sol';" ]}.


(** Two units that import the same file, [A$&.sol], from two directories;
    the backend has a warning about the imported file for each. *)
Definition dollar_sources : gmap string string :=
  {[ "P.sol" := "pragma solidity ^4.11.0; import './sub/dir/A$&.sol'; contract P {}";
     "Q.sol" := "pragma solidity ^4.11.0; import './other/A$&.sol'; contract Q {}" ]}.

Definition dollar_solc : Backend := λ input optimizer findImports,
  {| compiled_errors :=
       Some ((λ unit : string * string,
                (if decide (unit.1 = "P.sol") then "sub/dir/" else "other/")
                +:+ "A$&.sol:3: Warning: x") <$> map_to_list input);
     compiled_contracts := compiled_contracts (sample_solc input optimizer findImports) |}.

Definition dollar_run :=
  run sample_keccak sample_binPaths (λ _, Some dollar_solc) sample_options dollar_sources.

(** ** Further vocabulary *)


(** The turns a callback can still take. *)
Definition turns_left (t : task) : nat :=
  match t with
  | AwaitRead _ _ => 2
  | AwaitWrite _ _ _ => 1
  | Resolved | Rejected _ => 0
  end.

(** The turns a schedule gives to callback [i]. *)
Definition turns_of (i : nat) (schedule : list (nat * Z)) : nat :=
  length (filter (λ turn, turn.1 = i) schedule).

(** The readable files with the extension [.sol] that [getContractSources]
    reaches, in the order it visits them: an entry with the extension is
    read as a file, any other entry is entered as a directory. *)
Fixpoint files_of (dir : node) : list (string * string) :=
  match dir with
  | File _ => []
  | Directory entries => files_of_entries entries
  end
with files_of_entries (entries : listing) : list (string * string) :=
  match entries with
  | NoEntry => []
  | Entry name child rest =>
      (if decide (extname name = ".sol") then
         match child with
         | File (Some source) => [(name, source)]
         | _ => []
         end
       else files_of child) ++ files_of_entries rest
  end.

(** A contracts directory with a nested directory, a file that is not a
    source, a directory with the extension of a source, and two files of one
    name. *)
Definition nested_tree : node :=
  Directory
    (Entry "A.sol" (File (Some "contract A {}"))
    (Entry "lib"
       (Directory
          (Entry "B.sol" (File (Some "contract B {}"))
          (Entry "A.sol" (File (Some "contract A2 {}")) NoEntry)))
    (Entry "README" (File (Some "notes"))
    (Entry "x.sol" (Directory NoEntry) NoEntry)))).

Definition nested_sources : gmap string string :=
  {[ "A.sol" := "contract A2 {}"; "B.sol" := "contract B {}" ]}.

(** A backend that has, for every unit, a message without a path. *)
Definition pathless_solc : Backend := λ input optimizer findImports,
  {| compiled_errors := Some ["Internal compiler error"];
     compiled_contracts := compiled_contracts (sample_solc input optimizer findImports) |}.

Definition pathless_step :=
  step sample_keccak sample_binPaths (λ _, Some pathless_solc) sample_options
    sample_sources.

Definition failing_step :=
  step sample_keccak sample_binPaths sample_require sample_options failing_sources.

(** What a run maintains about the invocations of the backend: callback [i]
    is the callback of unit [i]; a callback that has not read its artifact
    file has not invoked the backend; no unit has been handed to the backend
    twice, and none that was not discovered. *)
Definition invoked_once (sources : gmap string string) (st : state) : Prop :=
  (∀ i t, tasks st !! i = Some t →
     ∃ name source, map_to_list sources !! i = Some (name, source)
       ∧ ∀ n s, t = AwaitRead n s → n = name ∧ name ∉ invocations (trace st))
  ∧ NoDup (invocations (trace st))
  ∧ ∀ n, n ∈ invocations (trace st) → is_Some (sources !! n).

(** The contracts directory of [mixed_sources]. *)
Definition mixed_tree : node :=
  Directory
    (Entry "Baz.sol" (File (Some "pragma solidity ^4.8.0; contract Baz {}"))
    (Entry "Foo.sol" (File (Some sample_source)) NoEntry)).

Definition mixed_run :=
  run sample_keccak sample_binPaths sample_require sample_options mixed_sources.

(** The units whose artifact file was written, in order. *)
Definition saved (tr : list event) : list string :=
  omap (λ e, match e with Saved name => Some name | _ => None end) tr.

(** * Properties *)

(** ** Strings *)

Lemma chars_app (a b : string) : chars (a +:+ b) = chars a ++ chars b.
Proof. induction a as [|c a IH]; simpl; [done | by rewrite <- IH]. Qed.

Lemma text_of_chars (s : string) : text_of (chars s) = s.
Proof. apply string_of_list_ascii_of_string. Qed.

Lemma chars_text_of (l : list ascii) : chars (text_of l) = l.
Proof. apply list_ascii_of_string_of_list_ascii. Qed.

Lemma chars_inj (a b : string) : chars a = chars b → a = b.
Proof. intros H. by rewrite <- (text_of_chars a), H, text_of_chars. Qed.

(** A number never prints as the word [length]. *)
Lemma pretty_N_go_not_l (x : N) (s s' : string) :
  s ≠ String "l" s' → pretty_N_go x s ≠ String "l" s'.
Proof.
  revert s. induction (N.lt_wf_0 x) as [x _ IH]; intros s Hs.
  destruct (decide (x = 0)%N) as [->|Hx].
  - by rewrite pretty_N_go_0.
  - rewrite pretty_N_go_step by lia. apply IH.
    + apply N.div_lt; lia.
    + unfold pretty_N_char. by repeat case_match.
Qed.

Lemma pretty_Z_not_length (z : Z) : pretty z ≠ "length".
Proof.
  destruct z as [|p|p]; [done| |done].
  unfold pretty, pretty_Z, pretty, pretty_positive, pretty, pretty_N.
  case_decide; [done|]. by apply pretty_N_go_not_l.
Qed.

(** Nor as the word [__proto__]. *)
Lemma pretty_N_go_not_underscore (x : N) (s s' : string) :
  s ≠ String "_" s' → pretty_N_go x s ≠ String "_" s'.
Proof.
  revert s. induction (N.lt_wf_0 x) as [x _ IH]; intros s Hs.
  destruct (decide (x = 0)%N) as [->|Hx].
  - by rewrite pretty_N_go_0.
  - rewrite pretty_N_go_step by lia. apply IH.
    + apply N.div_lt; lia.
    + unfold pretty_N_char. by repeat case_match.
Qed.

Lemma pretty_Z_not_proto (z : Z) : pretty z ≠ "__proto__".
Proof.
  destruct z as [|p|p]; [done| |done].
  unfold pretty, pretty_Z, pretty, pretty_positive, pretty, pretty_N.
  case_decide; [done|]. by apply pretty_N_go_not_underscore.
Qed.

(** ** Regular expressions: [exec] and [lang] *)

Lemma exec_Quant (r : regex) (lo hi : nat) (s : list ascii) :
  exec (Quant r lo hi) s =
  match hi with
  | 0 => []
  | S hi' => seq_results (exec r s) (exec (Quant r (pred lo) hi'))
  end ++ (if lo is 0 then [([], s)] else []).
Proof. by destruct hi. Qed.

Lemma exec_Group (r : regex) (s : list ascii) :
  exec (Group r) s
  = map (λ cr, (take (length s - length cr.2) s :: cr.1, cr.2)) (exec r s).
Proof. done. Qed.

Lemma in_seq_results (first : list (captures * list ascii))
    (next : list ascii → list (captures * list ascii)) (cr : captures * list ascii) :
  In cr (seq_results first next) ↔
  ∃ c1 s1 c2, In (c1, s1) first ∧ In (c2, cr.2) (next s1) ∧ cr.1 = c1 ++ c2.
Proof.
  unfold seq_results. rewrite in_flat_map. split.
  - intros ([c1 s1] & H1 & H2). apply in_map_iff in H2 as ([c2 s2] & <- & H2).
    by exists c1, s1, c2.
  - intros (c1 & s1 & c2 & H1 & H2 & Hc). exists (c1, s1). split; [done|].
    apply in_map_iff. exists (c2, cr.2). split; [|done].
    destruct cr; simpl in *. by rewrite Hc.
Qed.

Lemma in_star_rests (p : ascii → bool) (s rest : list ascii) :
  In rest (star_rests p s) ↔ ∃ w, s = w ++ rest ∧ Forall (λ c, p c = true) w.
Proof.
  revert rest. induction s as [|a s IH]; intros rest; simpl.
  - split.
    + intros [<-|[]]. by exists [].
    + intros (w & Hw & _). left. symmetry in Hw. by apply app_eq_nil in Hw as [_ ->].
  - destruct (p a) eqn:Hp.
    + rewrite in_app_iff, IH. simpl. split.
      * intros [(w & -> & Hw)|[<-|[]]]; [by exists (a :: w); auto | by exists []].
      * intros ([|b w] & Hw & HF); simpl in *; [by auto|].
        injection Hw as <- ->. left. exists w. by inversion HF.
    + simpl. split.
      * intros [<-|[]]. by exists [].
      * intros ([|b w] & Hw & HF); simpl in *; [by auto|].
        injection Hw as <- ->. inversion HF; congruence.
Qed.

(** Every result of [exec] is a match. *)
Lemma exec_sound (r : regex) (s : list ascii) (caps : captures) (rest : list ascii) :
  In (caps, rest) (exec r s) → ∃ w, s = w ++ rest ∧ lang r w caps.
Proof.
  revert s caps rest.
  induction r as [|c|p|r1 IH1 r2 IH2|r IH lo hi|p|r IH]; intros s caps rest.
  - intros [[= <- <-]|[]]. exists []. split; [done|constructor].
  - destruct s as [|a s]; simpl; [done|].
    destruct (Ascii.eqb_spec c a) as [->|]; [|done].
    intros [[= <- <-]|[]]. exists [a]. split; [done|constructor].
  - destruct s as [|a s]; simpl; [done|].
    destruct (p a) eqn:Hp; [|done].
    intros [[= <- <-]|[]]. exists [a]. split; [done|by constructor].
  - simpl. rewrite in_seq_results. intros (c1 & s1 & c2 & H1 & H2 & Hc).
    simpl in *. apply IH1 in H1 as (w1 & -> & L1). apply IH2 in H2 as (w2 & -> & L2).
    exists (w1 ++ w2). rewrite <- app_assoc, Hc. split; [done|by constructor].
  - revert lo s caps rest. induction hi as [|hi IHhi]; intros lo s caps rest;
      rewrite exec_Quant, in_app_iff.
    + intros [[]|H]. destruct lo; [|done]. destruct H as [[= <- <-]|[]].
      exists []. split; [done|constructor].
    + rewrite in_seq_results. intros [(c1 & s1 & c2 & H1 & H2 & Hc)|H].
      * simpl in *. apply IH in H1 as (w1 & -> & L1).
        apply IHhi in H2 as (w2 & -> & L2).
        exists (w1 ++ w2). rewrite <- app_assoc, Hc. split; [done|by constructor].
      * destruct lo; [|done]. destruct H as [[= <- <-]|[]].
        exists []. split; [done|constructor].
  - simpl. rewrite in_map_iff. intros (rest' & [= <- <-] & H).
    apply in_star_rests in H as (w & -> & Hw). exists w. split; [done|by constructor].
  - simpl. rewrite in_map_iff. intros ([c rest'] & [= <- <-] & H).
    apply IH in H as (w & -> & L). exists w. simpl. split; [done|].
    rewrite length_app, Nat.add_sub, take_app_length. by constructor.
Qed.

(** Every match is a result of [exec]. *)
Lemma exec_complete (r : regex) (w : list ascii) (caps : captures) :
  lang r w caps → ∀ rest, In (caps, rest) (exec r (w ++ rest)).
Proof.
  induction 1 as [|c|p c Hp|r1 r2 w1 w2 c1 c2 _ IH1 _ IH2|r hi
                 |r lo hi w1 w2 c1 c2 _ IH1 _ IH2|p w Hw|r w c _ IH]; intros rest.
  - by left.
  - simpl. rewrite Ascii.eqb_refl. by left.
  - simpl. rewrite Hp. by left.
  - simpl. apply in_seq_results. exists c1, (w2 ++ rest), c2. simpl.
    rewrite <- app_assoc. auto.
  - rewrite exec_Quant. apply in_app_iff. right. by left.
  - rewrite exec_Quant. apply in_app_iff. left.
    apply in_seq_results. exists c1, (w2 ++ rest), c2. simpl.
    rewrite <- app_assoc. auto.
  - simpl. apply in_map_iff. exists rest. split; [done|].
    apply in_star_rests. by exists w.
  - simpl. apply in_map_iff. exists (c, rest). simpl. split; [|done].
    by rewrite length_app, Nat.add_sub, take_app_length.
Qed.

Lemma take_matched (s w rest : list ascii) :
  s = w ++ rest → take (length s - length rest) s = w.
Proof. intros ->. by rewrite length_app, Nat.add_sub, take_app_length. Qed.

Lemma search_here (r : regex) (s : list ascii) (caps : captures)
    (rest : list ascii) (l : list (captures * list ascii)) :
  exec r s = (caps, rest) :: l →
  let w := take (length s - length rest) s in
  s = w ++ rest ∧ lang r w caps ∧ In (caps, rest) (exec r (w ++ rest)).
Proof.
  intros He. destruct (exec_sound r s caps rest) as (w & Hw & L); [rewrite He; by left|].
  cbv zeta. rewrite (take_matched _ _ _ Hw).
  split; [done|]. split; [done|]. rewrite <- Hw, He; by left.
Qed.

(** [search] finds the leftmost place where the expression matches. *)
Lemma search_Some (r : regex) (s : list ascii) (i : nat) (m : match_array) :
  search r s i = Some m →
  ∃ before after,
    s = before ++ matched m ++ after
    ∧ lang r (matched m) (groups m)
    ∧ In (groups m, after) (exec r (matched m ++ after))
    ∧ ∀ k, k < length before → exec r (drop k s) = [].
Proof.
  revert i. induction s as [|a s IH]; intros i; cbn [search].
  - destruct (exec r []) as [|[caps rest] l] eqn:He; [done|].
    intros [= <-]. destruct (search_here _ _ _ _ _ He) as (H1 & H2 & H3).
    exists [], rest. cbn [matched groups length]. repeat split; try done. lia.
  - destruct (exec r (a :: s)) as [|[caps rest] l] eqn:He.
    + intros H. apply IH in H as (before & after & Hs & L & Hin & Hmin).
      exists (a :: before), after. simpl. rewrite Hs at 1.
      split; [done|]. split; [done|]. split; [done|].
      intros [|k] Hk; simpl; [done|]. apply Hmin. lia.
    + intros [= <-]. destruct (search_here _ _ _ _ _ He) as (H1 & H2 & H3).
      exists [], rest. cbn [matched groups length]. repeat split; try done. lia.
Qed.

Lemma search_None (r : regex) (s : list ascii) (i : nat) :
  search r s i = None →
  ∀ before w after caps, s = before ++ w ++ after → ¬ lang r w caps.
Proof.
  revert i. induction s as [|a s IH]; intros i; simpl.
  - destruct (exec r []) as [|[caps rest] l] eqn:He; [|done].
    intros _ before w after caps Hs L. symmetry in Hs.
    apply app_eq_nil in Hs as [-> [-> ->]%app_eq_nil].
    pose proof (exec_complete _ _ _ L []) as H. simpl in H. by rewrite He in H.
  - destruct (exec r (a :: s)) as [|[caps rest] l] eqn:He; [|done].
    intros Hnone [|b before] w after caps Hs L.
    + simpl in Hs. pose proof (exec_complete _ _ _ L after) as H.
      by rewrite <- Hs, He in H.
    + injection Hs as -> Hs. by eapply IH.
Qed.

Lemma search_is_Some (r : regex) (s before w after : list ascii) (caps : captures) (i : nat) :
  s = before ++ w ++ after → lang r w caps → is_Some (search r s i).
Proof.
  intros Hs L. destruct (search r s i) eqn:H; [done|].
  by destruct (search_None _ _ _ H _ _ _ _ Hs L).
Qed.

(** ** The version expression *)

Lemma lang_Eps_inv (w : list ascii) (caps : captures) :
  lang Eps w caps → w = [] ∧ caps = [].
Proof. by inversion 1. Qed.

Lemma lang_Lit_inv (c : ascii) (w : list ascii) (caps : captures) :
  lang (Lit c) w caps → w = [c] ∧ caps = [].
Proof. by inversion 1. Qed.

Lemma lang_Class_inv (p : ascii → bool) (w : list ascii) (caps : captures) :
  lang (Class p) w caps → ∃ c, w = [c] ∧ caps = [] ∧ p c = true.
Proof. inversion 1; subst. eauto. Qed.

Lemma lang_Seq_inv (r1 r2 : regex) (w : list ascii) (caps : captures) :
  lang (Seq r1 r2) w caps →
  ∃ w1 w2 c1 c2, w = w1 ++ w2 ∧ caps = c1 ++ c2 ∧ lang r1 w1 c1 ∧ lang r2 w2 c2.
Proof. inversion 1; subst. eauto 10. Qed.

Lemma lang_Quant_inv (r : regex) (lo hi : nat) (w : list ascii) (caps : captures) :
  lang (Quant r lo hi) w caps →
  (lo = 0 ∧ w = [] ∧ caps = [])
  ∨ ∃ hi' w1 w2 c1 c2,
      hi = S hi' ∧ w = w1 ++ w2 ∧ caps = c1 ++ c2
      ∧ lang r w1 c1 ∧ lang (Quant r (pred lo) hi') w2 c2.
Proof. inversion 1; subst; [by left|right; eauto 10]. Qed.

Lemma lang_Star_inv (p : ascii → bool) (w : list ascii) (caps : captures) :
  lang (Star p) w caps → Forall (λ c, p c = true) w ∧ caps = [].
Proof. by inversion 1. Qed.

Lemma lang_Group_inv (r : regex) (w : list ascii) (caps : captures) :
  lang (Group r) w caps → ∃ c, caps = w :: c ∧ lang r w c.
Proof. inversion 1; subst. eauto. Qed.

Lemma lang_lit (l w : list ascii) (caps : captures) :
  lang (lit l) w caps ↔ w = l ∧ caps = [].
Proof.
  revert w caps. induction l as [|c l IH]; intros w caps; simpl.
  - split; [apply lang_Eps_inv|]. intros [-> ->]. constructor.
  - split.
    + intros (w1 & w2 & c1 & c2 & -> & -> & [-> ->]%lang_Lit_inv & [-> ->]%IH)%lang_Seq_inv.
      done.
    + intros [-> ->]. apply (lang_Seq (Lit c) (lit l) [c] l [] []); [constructor|].
      by apply IH.
Qed.

Lemma lang_caret (w : list ascii) (caps : captures) :
  lang (Quant (Lit "^") 0 1) w caps ↔ (w = [] ∨ w = ["^"%char]) ∧ caps = [].
Proof.
  split.
  - intros [(_ & -> & ->)|(hi & w1 & w2 & c1 & c2 & [= <-] & -> & -> & H1 & H2)]%lang_Quant_inv;
      [by auto|].
    apply lang_Lit_inv in H1 as [-> ->].
    apply lang_Quant_inv in H2 as [(_ & -> & ->)|(? & ? & ? & ? & ? & ? & _)]; [|done].
    by auto.
  - intros [[->| ->] ->]; [constructor|].
    apply (lang_Quant_more (Lit "^") 0 0 ["^"%char] [] [] []); constructor.
Qed.

Lemma lang_digits12 (w : list ascii) (caps : captures) :
  lang (Quant (Class is_digit) 1 2) w caps ↔ digits12 w ∧ caps = [].
Proof.
  unfold digits12. split.
  - intros [(? & _)|(hi & w1 & w2 & c1 & c2 & [= <-] & -> & -> & H1 & H2)]%lang_Quant_inv;
      [done|].
    apply lang_Class_inv in H1 as (a & -> & -> & Ha).
    apply lang_Quant_inv in H2
      as [(_ & -> & ->)|(hi & w1 & w3 & c1 & c3 & [= <-] & -> & -> & H1 & H2)].
    { split; [|done]. split; [by left|]. by repeat constructor. }
    apply lang_Class_inv in H1 as (b & -> & -> & Hb).
    apply lang_Quant_inv in H2 as [(_ & -> & ->)|(? & ? & ? & ? & ? & ? & _)]; [|done].
    split; [|done]. split; [by right|]. by repeat constructor.
  - intros [[[Hlen|Hlen] Hd] ->].
    + destruct w as [|a [|b w]]; try done. inversion Hd; subst.
      apply (lang_Quant_more (Class is_digit) 1 1 [a] [] [] []); by constructor.
    + destruct w as [|a [|b [|c w]]]; try done.
      inversion Hd as [|?? Ha Hd']; subst. inversion Hd'; subst.
      apply (lang_Quant_more (Class is_digit) 1 1 [a] [b] [] []); [by constructor|].
      apply (lang_Quant_more (Class is_digit) 0 0 [b] [] [] []); by constructor.
Qed.

Lemma lang_version_token (w : list ascii) (caps : captures) :
  lang version_token w caps ↔ is_version w ∧ caps = [].
Proof.
  unfold version_token, is_version. split.
  - intros (major & w1 & c1 & c1' & -> & -> & [D1 ->]%lang_digits12 & H)%lang_Seq_inv.
    apply lang_Seq_inv in H
      as (? & w2 & ? & c2 & -> & -> & [-> ->]%lang_Lit_inv & H).
    apply lang_Seq_inv in H
      as (minor & w3 & ? & c3 & -> & -> & [D2 ->]%lang_digits12 & H).
    apply lang_Seq_inv in H
      as (? & patch & ? & c4 & -> & -> & [-> ->]%lang_Lit_inv & [D3 ->]%lang_digits12).
    split; [|done]. by exists major, minor, patch.
  - intros [(major & minor & patch & -> & D1 & D2 & D3) ->].
    apply (lang_Seq _ _ major _ [] []); [by apply lang_digits12|].
    apply (lang_Seq _ _ ["."%char] _ [] []); [constructor|].
    apply (lang_Seq _ _ minor _ [] []); [by apply lang_digits12|].
    apply (lang_Seq _ _ ["."%char] _ [] []); [constructor|].
    by apply lang_digits12.
Qed.

(** The version expression matches the declarations, and captures their
    version. *)
Lemma lang_version_regex (w : list ascii) (caps : captures) :
  lang version_regex w caps ↔ ∃ v, is_declaration w v ∧ caps = [v].
Proof.
  unfold version_regex, is_declaration. split.
  - intros (w1 & v & c1 & c2 & -> & -> & H1 & H2)%lang_Seq_inv.
    apply lang_Seq_inv in H1 as (? & w2 & ? & c3 & -> & -> & [-> ->]%lang_lit & H1).
    apply lang_Seq_inv in H1
      as (? & caret & ? & ? & -> & -> & (space & -> & -> & Hs)%lang_Class_inv
          & [Hc ->]%lang_caret).
    apply lang_Group_inv in H2 as (c & -> & [Hv ->]%lang_version_token).
    exists v. split; [|done]. exists space, caret. by rewrite <- !app_assoc.
  - intros (v & (space & caret & -> & Hs & Hc & Hv) & ->).
    change (chars "solidity" ++ space :: caret ++ v)
      with (chars "solidity" ++ [space] ++ caret ++ v).
    rewrite !app_assoc, <- (app_assoc (chars "solidity")).
    apply (lang_Seq _ _ _ v [] [v]); [|constructor; by apply lang_version_token].
    apply (lang_Seq _ _ _ _ [] []); [by apply lang_lit|].
    apply (lang_Seq _ _ [space] caret [] []); [by constructor|by apply lang_caret].
Qed.

(** What [parseSolidityVersion] returns, from where the expression matches. *)
Lemma parseSolidityVersion_OK (source v : string) :
  parseSolidityVersion source = OK v →
  ∃ before d after,
    chars source = before ++ d ++ after
    ∧ is_declaration d (chars v)
    ∧ In ([chars v], after) (exec version_regex (d ++ after))
    ∧ ∀ k, k < length before → exec version_regex (drop k (chars source)) = [].
Proof.
  unfold parseSolidityVersion, str_match.
  destruct (search version_regex (chars source) 0) as [m|] eqn:Hm; [|done].
  apply search_Some in Hm as (before & after & Hs & L & Hin & Hmin).
  apply lang_version_regex in L as (w & Hd & Hcaps).
  unfold match_elem. rewrite Hcaps in *. simpl. intros [= <-].
  exists before, (matched m), after. by rewrite chars_text_of.
Qed.

Lemma parseSolidityVersion_Throw (source : string) (e : error) :
  parseSolidityVersion source = Throw e →
  e = VersionNotFound ∧ ∀ v, ¬ declares source v.
Proof.
  unfold parseSolidityVersion, str_match.
  destruct (search version_regex (chars source) 0) as [m|] eqn:Hm.
  - apply search_Some in Hm as (before & after & Hs & L & _).
    apply lang_version_regex in L as (w & Hd & Hcaps).
    unfold match_elem. by rewrite Hcaps.
  - simpl. intros [= <-]. split; [done|].
    intros v (before & d & after & Hs & Hd).
    eapply (search_None _ _ _ Hm _ _ _ _ Hs).
    apply lang_version_regex. by exists (chars v).
Qed.

(** ** Paths *)

Lemma take_while_all (p : ascii → bool) (l : list ascii) :
  Forall (λ c, p c = true) l → take_while p l = l.
Proof. induction 1 as [|c l Hc _ IH]; simpl; [done|]. by rewrite Hc, IH. Qed.

Lemma take_while_app (p : ascii → bool) (l l' : list ascii) (c : ascii) :
  Forall (λ c, p c = true) l → p c = false → take_while p (l ++ c :: l') = l.
Proof.
  intros Hl Hc. induction Hl as [|a l Ha _ IH]; simpl; [by rewrite Hc|].
  by rewrite Ha, IH.
Qed.

Lemma drop_while_head (p : ascii → bool) (l : list ascii) (c : ascii) :
  p c = false → drop_while p (c :: l) = c :: l.
Proof. intros Hc. simpl. by rewrite Hc. Qed.

Lemma starts_with_app (p s : list ascii) : starts_with p (p ++ s) = Some s.
Proof.
  induction p as [|c p IH]; simpl; [done|]. by rewrite Ascii.eqb_refl.
Qed.

Lemma starts_with_Some (p s rest : list ascii) :
  starts_with p s = Some rest → s = p ++ rest.
Proof.
  revert s. induction p as [|c p IH]; intros [|a s]; simpl; try congruence.
  destruct (Ascii.eqb_spec c a) as [->|]; [|done]. intros H. by rewrite (IH _ H).
Qed.

Lemma not_slash_rev (l : list ascii) :
  Forall (λ c, is_slash c = false) l →
  Forall (λ c, negb (is_slash c) = true) (rev l).
Proof.
  intros H. apply List.Forall_rev. eapply Forall_impl; [done|].
  by intros c ->.
Qed.

(** The base name of a path that ends with a file name is the file name. *)
Lemma basename_chars_dir (dir name : list ascii) :
  name ≠ [] → Forall (λ c, is_slash c = false) name →
  basename_chars (dir ++ "/"%char :: name) = name.
Proof.
  intros Hne Hname. unfold basename_chars.
  rewrite rev_app_distr. simpl. rewrite <- app_assoc. simpl.
  destruct (rev name) as [|c r] eqn:Hr.
  { destruct Hne. by rewrite <- (rev_involutive name), Hr. }
  pose proof (not_slash_rev _ Hname) as Hrev. rewrite Hr in Hrev.
  change ((c :: r) ++ "/"%char :: rev dir) with (c :: (r ++ "/"%char :: rev dir)).
  rewrite drop_while_head.
  2:{ inversion Hrev as [|?? Hc]. by destruct (is_slash c). }
  change (c :: (r ++ "/"%char :: rev dir)) with ((c :: r) ++ "/"%char :: rev dir).
  rewrite take_while_app; [|done..].
  by rewrite <- Hr, rev_involutive.
Qed.

Lemma basename_chars_name (name : list ascii) :
  Forall (λ c, is_slash c = false) name → basename_chars name = name.
Proof.
  intros Hname. unfold basename_chars.
  pose proof (not_slash_rev _ Hname) as Hrev.
  destruct (rev name) as [|c r] eqn:Hr.
  { simpl. by rewrite <- (rev_involutive name), Hr. }
  rewrite drop_while_head.
  2:{ inversion Hrev as [|?? Hc]. by destruct (is_slash c). }
  rewrite take_while_all by done. by rewrite <- Hr, rev_involutive.
Qed.

Lemma is_file_name_chars (name : string) :
  is_file_name name → chars name ≠ [] ∧ Forall (λ c, is_slash c = false) (chars name).
Proof.
  intros [Hne Hs]. split; [|done]. intros H. apply Hne.
  by rewrite <- (text_of_chars name), H.
Qed.

Lemma basename_dir (dir name : string) :
  is_file_name name → basename (dir +:+ "/" +:+ name) = name.
Proof.
  intros [Hne Hs]%is_file_name_chars. unfold basename.
  rewrite !chars_app. simpl. rewrite basename_chars_dir by done.
  apply text_of_chars.
Qed.

Lemma basename_name (name : string) :
  is_file_name name → basename name = name.
Proof.
  intros [Hne Hs]%is_file_name_chars. unfold basename.
  rewrite basename_chars_name by done. apply text_of_chars.
Qed.

Lemma no_slash_sol : Forall (λ c, is_slash c = false) (chars ".sol").
Proof. by repeat constructor. Qed.

(** The base name of a source file name, without its extension. *)
Lemma basename_ext_sol (stem : string) :
  is_file_name stem → basename_ext (stem +:+ ".sol") ".sol" = stem.
Proof.
  intros [Hne Hs]%is_file_name_chars. unfold basename_ext.
  case_decide as Heq.
  { destruct Hne. apply (f_equal chars) in Heq. rewrite chars_app in Heq.
    by apply (app_inv_tail _ _ []) in Heq. }
  rewrite chars_app, basename_chars_name by (apply Forall_app; auto using no_slash_sol).
  rewrite rev_app_distr, starts_with_app.
  destruct (rev (chars stem)) as [|c r] eqn:Hr.
  { destruct Hne. by rewrite <- (rev_involutive (chars stem)), Hr. }
  by rewrite <- Hr, rev_involutive, text_of_chars.
Qed.

Lemma string_app_inv_tail (a b tail : string) : a +:+ tail = b +:+ tail → a = b.
Proof.
  intros H. apply chars_inj. apply (f_equal chars) in H.
  rewrite !chars_app in H. by apply app_inv_tail in H.
Qed.

(** ** Long version components *)

Lemma digits_split (l1 l2 r1 r2 : list ascii) (c d : ascii) :
  Forall (λ c, is_digit c = true) l1 → Forall (λ c, is_digit c = true) l2 →
  is_digit c = false → is_digit d = false →
  l1 ++ c :: r1 = l2 ++ d :: r2 → l1 = l2 ∧ r1 = r2.
Proof.
  intros H1. revert l2. induction H1 as [|a l1 Ha _ IH]; intros l2 H2 Hc Hd.
  - destruct H2 as [|b l2 Hb _]; simpl; [by intros [= _ ->]|].
    intros [= -> _]. congruence.
  - destruct H2 as [|b l2 Hb H2]; simpl.
    + intros [= -> _]. congruence.
    + intros [= -> H]. destruct (IH l2 H2 Hc Hd H) as [-> ->]. done.
Qed.

(** A source whose only declaration has a major or a minor component of three
    digits or more does not resolve. *)
Lemma long_major_or_minor (source : string) (major minor patch : list ascii) :
  sole_declaration source major minor patch →
  major ≠ [] → minor ≠ [] →
  Forall (λ c, is_digit c = true) major → Forall (λ c, is_digit c = true) minor →
  3 ≤ length major ∨ 3 ≤ length minor →
  parseSolidityVersion source = Throw VersionNotFound.
Proof.
  intros (before & space & caret & after & Hs & Hcaret & Hsole) Hmaj Hmin Dmaj Dmin Hlong.
  destruct (parseSolidityVersion source) as [v|e] eqn:Hp.
  2:{ by apply parseSolidityVersion_Throw in Hp as [-> _]. }
  exfalso.
  apply parseSolidityVersion_OK in Hp
    as (b & d & a & Hs' & (sp & caret' & -> & _ & Hcaret' & Hv) & _).
  destruct Hv as (M & m & p & Hv & [LM DM] & [Lm Dm] & _).
  rewrite Hv in Hs'. clear Hv.
  assert (b = before) as ->.
  { eapply Hsole. rewrite Hs', <- !app_assoc. done. }
  rewrite Hs in Hs'. rewrite <- !app_assoc in Hs'.
  apply app_inv_head in Hs'. apply app_inv_head in Hs'. simpl in Hs'.
  injection Hs' as _ Hs'. rewrite <- !app_assoc in Hs'. simpl in Hs'.
  assert (major ++ "."%char :: minor ++ "."%char :: patch ++ after
          = M ++ "."%char :: m ++ "."%char :: p ++ a) as Heq.
  { destruct Hcaret as [->| ->], Hcaret' as [->| ->]; simpl in Hs';
      rewrite <- ?app_assoc in Hs'; simpl in Hs'.
    - done.
    - destruct Dmaj as [|c major Hc _]; [done|]. injection Hs' as -> _. done.
    - destruct DM as [|c M Hc _]; [simpl in LM; lia|]. injection Hs' as <- _. done.
    - by injection Hs'. }
  apply digits_split in Heq as [-> Heq]; [|done..].
  apply digits_split in Heq as [-> _]; [|done..].
  lia.
Qed.

(** ** Normalised diagnostics *)

Lemma expand_no_dollar (m before after repl : list ascii) :
  no_dollar repl → expand m before after repl = repl.
Proof. induction 1 as [|c r Hc _ IH]; simpl; [done|]. by rewrite Hc, IH. Qed.

Lemma take_while_Forall (P : ascii → Prop) (p : ascii → bool) (l : list ascii) :
  Forall P l → Forall P (take_while p l).
Proof. induction 1 as [|c l Hc _ IH]; simpl; [done|]. destruct (p c); auto. Qed.

Lemma drop_while_Forall (P : ascii → Prop) (p : ascii → bool) (l : list ascii) :
  Forall P l → Forall P (drop_while p l).
Proof. induction 1 as [|c l Hc Hl IH]; simpl; [done|]. destruct (p c); auto. Qed.

Lemma basename_chars_Forall (P : ascii → Prop) (l : list ascii) :
  Forall P l → Forall P (basename_chars l).
Proof.
  intros H. unfold basename_chars.
  by apply List.Forall_rev, take_while_Forall, drop_while_Forall, List.Forall_rev.
Qed.

Lemma take_while_app_stop (p : ascii → bool) (l l' : list ascii) :
  l' = [] ∨ (∃ c r, l' = c :: r ∧ p c = false) →
  take_while p (l ++ l') = take_while p l.
Proof.
  intros Hl'. induction l as [|a l IH]; simpl.
  - destruct Hl' as [->|(c & r & -> & Hc)]; simpl; [done|by rewrite Hc].
  - destruct (p a); [by rewrite IH|done].
Qed.

(** The base name of a path that ends with [.sol] does not depend on a
    directory prefix put before it. *)
Lemma basename_chars_prefix (dir : string) (w : list ascii) :
  is_dir_prefix dir →
  basename_chars (chars dir ++ w ++ chars ".sol") = basename_chars (w ++ chars ".sol").
Proof.
  intros [_ Hdir]. unfold basename_chars.
  rewrite (rev_app_distr (chars dir)).
  assert (∃ r, rev (w ++ chars ".sol") = "l"%char :: r) as [r ->]
    by (rewrite rev_app_distr; by eexists).
  change (("l"%char :: r) ++ rev (chars dir))
    with ("l"%char :: (r ++ rev (chars dir))).
  rewrite !drop_while_head by done. f_equal.
  change ("l"%char :: (r ++ rev (chars dir)))
    with (("l"%char :: r) ++ rev (chars dir)).
  apply take_while_app_stop.
  destruct Hdir as [->|[dir' ->]]; [by left|right].
  rewrite chars_app, rev_app_distr. simpl. eauto.
Qed.

(** A match of [.*\.sol] at the start of a text is still the preferred
    match after a prefix on the same line. *)
Lemma star_seq_head (p : ascii → bool) (r : regex) (d t : list ascii)
    (cr : captures * list ascii) (l : list (captures * list ascii)) :
  Forall (λ c, p c = true) d →
  exec (Seq (Star p) r) t = cr :: l →
  ∃ l', exec (Seq (Star p) r) (d ++ t) = cr :: l'.
Proof.
  intros Hd Ht. induction Hd as [|c d Hc _ [l' IH]]; simpl; [by exists l|].
  simpl in IH. rewrite Hc, map_app. unfold seq_results in *.
  rewrite flat_map_app, IH. eexists. done.
Qed.

Lemma path_regex_head (d t : list ascii) (caps : captures) (rest : list ascii)
    (l : list (captures * list ascii)) :
  Forall (λ c, any_char c = true) d →
  exec path_regex t = (caps, rest) :: l →
  ∃ w l', t = w ++ chars ".sol" ++ rest
    ∧ exec path_regex (d ++ t) = ([d ++ w ++ chars ".sol"], rest) :: l'.
Proof.
  intros Hd. unfold path_regex. rewrite !exec_Group.
  destruct (exec (Seq (Star any_char) (lit (chars ".sol"))) t) as [|[c rest'] l0] eqn:He;
    [done|].
  destruct (star_seq_head _ _ d _ _ _ Hd He) as [l' He'].
  rewrite He'. cbn [map fst snd]. intros [= _ <- _].
  destruct (exec_sound (Seq (Star any_char) (lit (chars ".sol"))) t c rest')
    as (w0 & Hw0 & L); [rewrite He; by left|].
  apply lang_Seq_inv in L
    as (w & ? & ? & ? & -> & -> & [_ ->]%lang_Star_inv & [-> ->]%lang_lit).
  exists w. eexists. rewrite <- app_assoc in Hw0. split; [done|].
  rewrite (take_matched _ (d ++ w ++ chars ".sol") rest'); [done|].
  by rewrite Hw0, <- !app_assoc.
Qed.

Lemma search_head (r : regex) (s : list ascii) (i : nat) (caps : captures)
    (rest : list ascii) (l : list (captures * list ascii)) :
  exec r s = (caps, rest) :: l →
  search r s i = Some (MatchArray i (take (length s - length rest) s) caps).
Proof. intros He. destruct s; cbn [search]; by rewrite He. Qed.

Lemma find_first_head (p s rest : list ascii) :
  starts_with p s = Some rest → find_first p s = Some ([], rest).
Proof. intros H. destruct s; simpl; by rewrite H. Qed.

(** The normalised message does not depend on a directory prefix, when the
    message has no dollar sign. *)
Lemma normalized_prefix (dir : string) (t : list ascii) (caps : captures)
    (rest : list ascii) (l : list (captures * list ascii)) :
  is_dir_prefix dir → no_dollar t →
  exec path_regex t = (caps, rest) :: l →
  getNormalizedErrMsg (dir +:+ text_of t)
  = OK (text_of (basename_chars (take (length t - length rest) t) ++ rest)).
Proof.
  intros Hdir Hdollar He.
  destruct (path_regex_head (chars dir) t caps rest l (proj1 Hdir) He)
    as (w & l' & Ht & He').
  unfold getNormalizedErrMsg, str_match.
  rewrite chars_app, chars_text_of, (search_head _ _ _ _ _ _ He').
  cbn [match_elem matched groups lookup list_lookup].
  assert (chars dir ++ t = (chars dir ++ w ++ chars ".sol") ++ rest) as Hs
    by (by rewrite Ht, <- !app_assoc).
  rewrite (take_matched _ _ _ Hs), basename_chars_prefix by done.
  unfold replace_chars.
  rewrite Hs at 1. rewrite (find_first_head _ _ rest) by apply starts_with_app.
  rewrite (take_matched t (w ++ chars ".sol") rest) by (by rewrite <- app_assoc).
  rewrite expand_no_dollar; [done|].
  apply basename_chars_Forall. unfold no_dollar in Hdollar.
  rewrite Ht, app_assoc in Hdollar. by apply Forall_app in Hdollar as [? _].
Qed.

(** Two diagnostics that differ in the directory prefix before the file name
    are normalised to the same message, when the message has no dollar
    sign. *)
Lemma normalized_without_dollar (dir1 dir2 stem rest : string) :
  is_dir_prefix dir1 → is_dir_prefix dir2 →
  Forall (λ c, any_char c = true) (chars stem) →
  no_dollar (chars (stem +:+ ".sol" +:+ rest)) →
  ∃ msg,
    getNormalizedErrMsg (dir1 +:+ stem +:+ ".sol" +:+ rest) = OK msg
    ∧ getNormalizedErrMsg (dir2 +:+ stem +:+ ".sol" +:+ rest) = OK msg.
Proof.
  intros Hdir1 Hdir2 Hstem Hdollar.
  set (t := chars (stem +:+ ".sol" +:+ rest)) in *.
  assert (lang path_regex (chars stem ++ chars ".sol") [chars stem ++ chars ".sol"]) as L.
  { apply lang_Group, (lang_Seq _ _ _ _ [] []); [by constructor|by apply lang_lit]. }
  pose proof (exec_complete _ _ _ L (chars rest)) as Hin.
  assert ((chars stem ++ chars ".sol") ++ chars rest = t) as Ht
    by (subst t; by rewrite !chars_app, <- app_assoc).
  rewrite Ht in Hin.
  destruct (exec path_regex t) as [|[caps rest'] l] eqn:He; [done|].
  eexists. rewrite <- (text_of_chars (stem +:+ ".sol" +:+ rest)). fold t.
  split; by eapply normalized_prefix.
Qed.

(** ** Discovery *)

Lemma take_drop_while (p : ascii → bool) (l : list ascii) :
  take_while p l ++ drop_while p l = l.
Proof. induction l as [|c l IH]; simpl; [done|]. destruct (p c); simpl; congruence. Qed.

Lemma text_of_inj (l l' : list ascii) : text_of l = text_of l' → l = l'.
Proof. intros H. by rewrite <- (chars_text_of l), H, chars_text_of. Qed.

(** A file name with the extension [.sol] is the name of a source file. *)
Lemma extname_sol (name : string) :
  is_file_name name → extname name = ".sol" → is_sol_name name.
Proof.
  intros [Hne Hs]%is_file_name_chars. unfold extname.
  rewrite basename_chars_name by done.
  pose proof (take_drop_while (λ c, negb (is_dot c)) (rev (chars name))) as Hsplit.
  destruct (drop_while _ (rev (chars name))) as [|dot [|c r]]; [done..|].
  case_decide as Hdots; [done|].
  change ".sol" with (text_of (chars ".sol")). intros [= -> Hext]%text_of_inj.
  apply (f_equal (@rev ascii)) in Hext, Hsplit.
  rewrite rev_involutive in Hext. rewrite Hext, rev_involutive in Hsplit.
  simpl in Hsplit. rewrite <- !app_assoc in Hsplit. simpl in Hsplit.
  exists (text_of (rev r ++ [c])). split.
  - apply chars_inj. by rewrite chars_app, chars_text_of, <- Hsplit, <- app_assoc.
  - split.
    + intros Hempty. apply (f_equal chars) in Hempty.
      rewrite chars_text_of in Hempty. by destruct (rev r).
    + rewrite chars_text_of. rewrite <- Hsplit in Hs.
      apply Forall_app in Hs as [Hr Hc]. apply Forall_app. split; [done|].
      inversion Hc. by repeat constructor.
Qed.

(** The keys of the mapping [getContractSources] returns are names of source
    files. *)
Lemma visit_named (entries : listing) :
  named_entries entries →
  ∀ dirPath sources log,
    (∀ name, is_Some (sources !! name) → is_sol_name name) →
    ∀ name, is_Some ((visit dirPath entries sources log).1 !! name) → is_sol_name name.
Proof.
  induction entries as [content|entries IH| |name child IHchild rest IHrest]
    using listing_node_ind
    with (P := λ dir, named dir → ∀ dirPath sources log,
                 getContractSources dirPath dir = OK (sources, log) →
                 ∀ name, is_Some (sources !! name) → is_sol_name name).
  - done.
  - intros Hnamed dirPath sources log [= H] name. simpl in Hnamed.
    pose proof (IH Hnamed dirPath ∅ []) as Hvisit. rewrite H in Hvisit.
    apply Hvisit. intros n. rewrite lookup_empty. by intros [].
  - done.
  - intros (Hname & Hchild & Hrest) dirPath sources log Hsources. simpl.
    case_decide as Hext.
    + destruct child as [[source|]|]; try by apply IHrest.
      apply IHrest; [done|]. intros n. rewrite lookup_insert.
      case_decide as Hn; [|by apply Hsources]. subst. intros _. by apply extname_sol.
    + destruct (getContractSources _ child) as [[nested lines]|e] eqn:Hnested;
        [|by apply IHrest].
      apply IHrest; [done|]. intros n [x Hx].
      apply lookup_union_Some_raw in Hx as [Hx|[_ Hx]]; [|by apply Hsources].
      by eapply IHchild.
Qed.

Lemma getContractSources_named (dirPath : string) (dir : node)
    (sources : gmap string string) (log : list string) :
  named dir →
  getContractSources dirPath dir = OK (sources, log) →
  ∀ name, is_Some (sources !! name) → is_sol_name name.
Proof.
  destruct dir as [content|entries]; [done|]. simpl. intros Hnamed [= H] name.
  pose proof (visit_named entries Hnamed dirPath ∅ []) as Hvisit.
  rewrite H in Hvisit. apply Hvisit. intros n. rewrite lookup_empty. by intros [].
Qed.

(** ** Property reads *)

Lemma json_null_or (j : json) : j = JNull ∨ j ≠ JNull.
Proof. destruct j; auto. Qed.

Lemma get_own_props (j : json) (k : string) :
  j ≠ JNull → k ≠ "length" → get (Some j) k = OK (own_props j !! k).
Proof. intros Hj Hk. destruct j; simpl; try done; by case_decide. Qed.

Lemma get_networks (artifact : json) :
  match get (Some artifact) "networks" with
  | OK networks => networks
  | Throw _ => None
  end = own_props artifact !! "networks".
Proof. by destruct artifact. Qed.

Section Properties.

Variable keccak : string → string.
Variable binPaths : gmap string string.
Variable require : string → option Backend.
Variable options : CompilerOptions.
Variable sources : gmap string string.

Local Abbreviation step := (step keccak binPaths require options sources).
Local Abbreviation run := (run keccak binPaths require options sources).
Local Abbreviation decide_compile := (decide_compile options).
Local Abbreviation compile_unit := (compile_unit binPaths require options sources).
Local Abbreviation select_backend := (select_backend binPaths require).
Local Abbreviation merge := (merge options).
Local Abbreviation contractData := (contractData options).
Local Abbreviation artifactPath := (artifactPath options).
Local Abbreviation sourceHashOf := (sourceHashOf keccak).
Local Abbreviation networkKey := (networkKey options).
Local Abbreviation fresh := (fresh keccak options).
Local Abbreviation task_inv := (task_inv keccak options).
Local Abbreviation run_inv := (run_inv keccak options sources).

(** ** The [try] block *)

Lemma decide_compile_parsed (prior : json) (sourceHash : string) :
  let lc := decide_compile (Some (JsonText prior)) sourceHash in
  currentArtifactString lc = Some (JsonText prior)
  ∧ currentArtifact lc = Some prior
  ∧ oldNetworks lc = own_props prior !! "networks".
Proof.
  unfold decide_compile. cbn [JSON_parse]. rewrite <- get_networks.
  destruct (get (Some prior) "networks") as [networks|]; [|done].
  by destruct (_ ≫= _).
Qed.

Lemma decide_compile_file (file : text) (sourceHash : string) :
  let lc := decide_compile (Some file) sourceHash in
  currentArtifactString lc = Some file
  ∧ spread (currentArtifact lc) = delete "__proto__" (top_level file).
Proof.
  destruct file as [prior|other]; [|done].
  destruct (decide_compile_parsed prior sourceHash) as (H1 & H2 & _).
  simpl in *. by rewrite H1, H2.
Qed.

Lemma strict_neq_string_spec (v : option json) (s : string) :
  strict_neq_string v s = true ↔ v ≠ Some (JStr s).
Proof.
  destruct v as [[]|]; simpl; try (split; [congruence|done]).
  destruct (String.eqb_spec s0 s) as [->|]; simpl; split; congruence.
Qed.

Lemma strict_neq_number_spec (v : option json) (n : Z) :
  strict_neq_number v n = true ↔ v ≠ Some (JNum n).
Proof.
  destruct v as [[]|]; simpl; try (split; [congruence|done]).
  destruct (Z.eqb_spec n0 n) as [->|]; simpl; split; congruence.
Qed.

Lemma stale_spec (oldNetwork : option json) (sourceHash : string) :
  match stale options oldNetwork sourceHash with
  | OK b => b = true
  | Throw _ => True
  end ↔ stale_entry options oldNetwork sourceHash.
Proof.
  unfold stale, stale_entry. destruct oldNetwork as [e|]; [|done].
  destruct (json_null_or e) as [->|He]; [simpl; split; auto|].
  rewrite !get_own_props by done. simpl.
  destruct (strict_neq_string _ _) eqn:Hk.
  - apply strict_neq_string_spec in Hk. split; auto.
  - apply not_true_iff_false in Hk. rewrite strict_neq_string_spec in Hk.
    rewrite strict_neq_number_spec. split; [auto|]. by intros [|].
Qed.

(** The decision of the [try] block is the staleness condition on the entry
    the file holds; a file that cannot be read or parsed holds none. *)
Lemma shouldCompile_spec (read : option text) (sourceHash : string) :
  shouldCompile (decide_compile read sourceHash) = true
  ↔ stale_entry options (record_entry read (networkId options)) sourceHash.
Proof.
  destruct read as [[prior|other]|]; [|done..].
  unfold decide_compile, record_entry, byTarget. cbn [JSON_parse].
  pose proof (get_networks prior) as Hn.
  destruct (get (Some prior) "networks") as [networks|]; rewrite <- Hn;
    [|simpl; by split].
  destruct networks as [networks|]; [|simpl; by split].
  destruct (json_null_or networks) as [->|Hnull].
  { simpl. rewrite lookup_empty. by split. }
  rewrite get_own_props; [|done|apply pretty_Z_not_length]. simpl.
  rewrite <- stale_spec.
  by destruct (stale options _ _).
Qed.

Lemma report_invocations (msgs : list string) (errs : gset string) (tr : list event) :
  invocations (report msgs errs tr).1.2 = invocations tr.
Proof.
  revert errs tr. induction msgs as [|m msgs IH]; intros errs tr; simpl; [done|].
  destruct (getNormalizedErrMsg m); [|done].
  case_decide; rewrite IH; [done|].
  unfold invocations. rewrite omap_app. simpl. by rewrite app_nil_r.
Qed.

Lemma compile_unit_invocations (now : Z) (name source sourceHash : string)
    (lc : locals) (errs : gset string) (tr : list event) :
  invocations (compile_unit now name source sourceHash lc errs tr).1.2 =
  invocations tr ++
    match select_backend source with OK _ => [name] | Throw _ => [] end.
Proof.
  unfold compile_unit.
  destruct select_backend as [[solcVersion solcBin]|e]; simpl; [|by rewrite app_nil_r].
  assert (invocations (tr ++ [Compiling name; Invoked name]) = invocations tr ++ [name])
    as Htr by (unfold invocations; by rewrite omap_app).
  destruct (compiled_errors _) as [msgs|]; [|done].
  pose proof (report_invocations msgs errs (tr ++ [Compiling name; Invoked name])) as H.
  destruct (report _ _ _) as [[errs1 tr1] r]. simpl in *. by rewrite H.
Qed.

(** ** The compile block *)

Lemma build_artifact_OK (now : Z) (name sourceHash solcVersion : string)
    (compiled : Compiled) (lc : locals) (data : text) :
  build_artifact options now name sourceHash solcVersion compiled lc = OK data →
  ∃ abi unlinked_binary,
    data = JsonText (merge lc (basename_ext name ".sol")
             (contractData solcVersion sourceHash abi unlinked_binary now)).
Proof.
  unfold build_artifact.
  destruct (compiled_contracts compiled) as [outputs|]; simpl; [|done].
  destruct (outputs !! _) as [output|]; simpl; [|done].
  destruct (JSON_parse (interface output)) as [abi|]; simpl; [|done].
  intros [= <-]. eauto.
Qed.

Lemma compile_unit_OK (now : Z) (name source sourceHash : string) (lc : locals)
    (errs errs' : gset string) (tr tr' : list event) (data : text) :
  compile_unit now name source sourceHash lc errs tr = (errs', tr', OK data) →
  ∃ solcVersion solcBin abi unlinked_binary,
    select_backend source = OK (solcVersion, solcBin)
    ∧ data = JsonText (merge lc (basename_ext name ".sol")
               (contractData solcVersion sourceHash abi unlinked_binary now)).
Proof.
  unfold compile_unit.
  destruct select_backend as [[solcVersion solcBin]|e]; [|done].
  destruct (compiled_errors _) as [msgs|].
  - destruct (report _ _ _) as [[errs1 tr1] [[]|e]]; [|done].
    simpl. intros [= _ _ H]. apply build_artifact_OK in H as (abi & bin & ->).
    by exists solcVersion, solcBin, abi, bin.
  - simpl. intros [= _ _ H]. apply build_artifact_OK in H as (abi & bin & ->).
    by exists solcVersion, solcBin, abi, bin.
Qed.

(** ** One turn of a callback *)

Lemma step_read (st : state) (i : nat) (now : Z) (name source : string) :
  tasks st !! i = Some (AwaitRead name source) →
  let path := artifactPath name in
  let lc := decide_compile (fs st !! path) (sourceHashOf source) in
  step i now st =
    if shouldCompile lc then
      match compile_unit now name source (sourceHashOf source) lc
              (errors st) (trace st) with
      | (errs, tr, OK artifactString) =>
          State (fs st) errs tr (<[i := AwaitWrite name path artifactString]> (tasks st))
      | (errs, tr, Throw e) => State (fs st) errs tr (<[i := Rejected e]> (tasks st))
      end
    else settle i Resolved st.
Proof. intros Hi. unfold step. by rewrite Hi. Qed.

Lemma step_write (st : state) (i : nat) (now : Z) (name path : string) (data : text) :
  tasks st !! i = Some (AwaitWrite name path data) →
  step i now st =
    State (<[path := data]> (fs st)) (errors st) (trace st ++ [Saved name])
      (<[i := Resolved]> (tasks st)).
Proof. intros Hi. unfold step. by rewrite Hi. Qed.

(** A callback that was reading and is now writing has compiled its unit:
    what it writes is the merge of the fresh entry into what it read. *)
Lemma step_read_write (st : state) (i : nat) (now : Z)
    (name source name' path : string) (data : text) :
  tasks st !! i = Some (AwaitRead name source) →
  tasks (step i now st) !! i = Some (AwaitWrite name' path data) →
  let lc := decide_compile (fs st !! artifactPath name) (sourceHashOf source) in
  name' = name ∧ path = artifactPath name ∧ shouldCompile lc = true
  ∧ ∃ solcVersion solcBin abi unlinked_binary,
      select_backend source = OK (solcVersion, solcBin)
      ∧ data = JsonText (merge lc (basename_ext name ".sol")
                 (contractData solcVersion (sourceHashOf source) abi
                    unlinked_binary now)).
Proof.
  intros Hi. pose proof (lookup_lt_Some _ _ _ Hi) as Hlt.
  rewrite (step_read _ _ _ _ _ Hi). cbv zeta.
  destruct (shouldCompile _) eqn:Hstale; simpl.
  2:{ by rewrite list_lookup_insert_eq. }
  destruct (compile_unit _ _ _ _ _ _ _) as [[errs tr] [artifactString|e]] eqn:Hc; simpl.
  2:{ by rewrite list_lookup_insert_eq. }
  rewrite list_lookup_insert_eq by done. intros [= <- <- <-].
  apply compile_unit_OK in Hc as (v & b & abi & bin & Hsel & ->).
  do 3 (split; [done|]). by exists v, b, abi, bin.
Qed.

(** C1.  Cross-target isolation: when a unit is compiled for the target of the
    run and its artifact file held a record, the record the callback writes,
    and the file holds once the write is done, has for every other target
    the entry the file had. *)
Theorem C1_cross_target_isolation (st : state) (i : nat) (now : Z)
    (name source path : string) (prior : json) (data : text) (T1 : Z) :
  tasks st !! i = Some (AwaitRead name source) →
  fs st !! artifactPath name = Some (JsonText prior) →
  T1 ≠ networkId options →
  tasks (step i now st) !! i = Some (AwaitWrite name path data) →
  ∃ merged,
    data = JsonText merged
    ∧ byTarget merged T1 = byTarget prior T1
    ∧ ∀ now', fs (step i now' (step i now st)) !! artifactPath name
              = Some (JsonText merged).
Proof.
  intros Hi Hfile HT Hw.
  destruct (step_read_write _ _ _ _ _ _ _ _ Hi Hw)
    as (_ & Hpath & _ & v & b & abi & bin & _ & Hdata).
  eexists; split; [done|]. split.
  - rewrite Hfile.
    destruct (decide_compile_parsed prior (sourceHashOf source)) as (Hs & Ha & Hn).
    unfold merge. rewrite Hs, Hn. unfold byTarget. simpl.
    rewrite lookup_insert_eq. simpl.
    rewrite lookup_insert_ne by (intros H; apply HT; symmetry; by apply (inj pretty)).
    destruct (own_props prior !! "networks") as [networks|]; simpl; [|done].
    apply lookup_delete_ne. symmetry. apply pretty_Z_not_proto.
  - intros now'. rewrite (step_write _ _ _ _ _ _ Hw). simpl.
    by rewrite Hpath, lookup_insert_eq, Hdata.
Qed.

(** C9 (as amended).  When the artifact file of a unit exists and the unit
    is compiled, every top-level field of the artifact it writes, [networks]
    and [__proto__] apart, is the field of the file; the artifact it writes
    has no field [__proto__], whatever the file has. *)
Theorem C9_other_fields_carried_over (st : state) (i : nat) (now : Z)
    (name source path : string) (file data : text) :
  tasks st !! i = Some (AwaitRead name source) →
  fs st !! artifactPath name = Some file →
  tasks (step i now st) !! i = Some (AwaitWrite name path data) →
  (∀ field, field ≠ "networks" → field ≠ "__proto__" →
     top_level data !! field = top_level file !! field)
  ∧ top_level data !! "__proto__" = None.
Proof.
  intros Hi Hfile Hw.
  destruct (step_read_write _ _ _ _ _ _ _ _ Hi Hw) as (_ & _ & _ & v & b & abi & bin & _ & ->).
  rewrite Hfile.
  destruct (decide_compile_file file (sourceHashOf source)) as (Hs & Ha).
  unfold merge. rewrite Hs. cbn [top_level own_props]. rewrite Ha. split.
  - intros field Hfield Hproto.
    by rewrite lookup_insert_ne, lookup_delete_ne.
  - by rewrite lookup_insert_ne, lookup_delete_eq.
Qed.


(** A turn of one callback and the settling of another commute. *)
Lemma step_settle (st : state) (i j : nat) (now : Z) (t : task) :
  j ≠ i → step j now (settle i t st) = settle i t (step j now st).
Proof.
  intros Hji. unfold step, settle; simpl.
  rewrite list_lookup_insert_ne by done.
  destruct (tasks st !! j) as [[name source|name path data| |e]|]; simpl; try done.
  - destruct (shouldCompile _); simpl.
    + destruct (compile_unit _ _ _ _ _ _ _) as [[errs tr] [data|e]]; simpl;
        f_equal; by apply list_insert_insert_ne.
    + f_equal; by apply list_insert_insert_ne.
  - f_equal; by apply list_insert_insert_ne.
Qed.

(** When the promise of [compileAll] resolves, the callback of every unit is
    at its first [await]: nothing has been read, compiled or written. *)
Lemma compileAll_pending (files : gmap string text) :
  let st := compileAll sources files in
  fs st = files ∧ trace st = []
  ∧ Forall (λ t, ∃ name source, t = AwaitRead name source ∧ sources !! name = Some source)
      (tasks st).
Proof.
  simpl. split; [done|]. split; [done|].
  apply Forall_fmap, Forall_forall. intros [name source] Hin. simpl.
  exists name, source. split; [done|]. by apply elem_of_map_to_list.
Qed.

(** C6 (as amended).  When the table has no entry for the version of a unit
    that is to be compiled and no module is found at the path built from
    the missing entry, the callback of the unit ends with the loader's
    exception; nothing else of the run changes, and a turn of any other
    callback goes as it would have gone. *)
Theorem C6_unregistered_version (st : state) (i : nat) (now : Z)
    (name source solcVersion : string) :
  tasks st !! i = Some (AwaitRead name source) →
  shouldCompile (decide_compile (fs st !! artifactPath name) (sourceHashOf source)) = true →
  parseSolidityVersion source = OK solcVersion →
  binPaths !! solcVersion = None →
  require "./solc/solc_bin/undefined" = None →
  let e := ModuleNotFound "./solc/solc_bin/undefined" in
  select_backend source = Throw e
  ∧ step i now st = settle i (Rejected e) st
  ∧ ∀ j now', j ≠ i →
      step j now' (step i now st) = settle i (Rejected e) (step j now' st).
Proof.
  intros Hi Hstale Hv Hbin Hreq e.
  assert (select_backend source = Throw e) as Hsel.
  { unfold select_backend. rewrite Hv. simpl. rewrite Hbin. simpl.
    change ("./solc/solc_bin/" +:+ "undefined") with "./solc/solc_bin/undefined".
    by rewrite Hreq. }
  assert (step i now st = settle i (Rejected e) st) as Hstep.
  { rewrite (step_read _ _ _ _ _ Hi). cbv zeta. rewrite Hstale.
    unfold compile_unit. by rewrite Hsel. }
  split; [done|]. split; [done|].
  intros j now' Hj. rewrite Hstep. by apply step_settle.
Qed.

(** ** Two runs in succession *)

Lemma artifactPath_inj (name1 name2 : string) :
  is_sol_name name1 → is_sol_name name2 →
  artifactPath name1 = artifactPath name2 → name1 = name2.
Proof.
  intros (stem1 & -> & H1) (stem2 & -> & H2). unfold artifactPath.
  rewrite !basename_ext_sol by done. intros H.
  apply (inj (String.app _)), (inj (String.app _)) in H.
  by apply string_app_inv_tail in H as ->.
Qed.

(** What a callback writes is up to date. *)
Lemma merge_fresh (lc : locals) (contractName solcVersion sourceHash : string)
    (abi : json) (unlinked_binary : string) (now : Z) :
  shouldCompile (decide_compile
    (Some (JsonText (merge lc contractName
       (contractData solcVersion sourceHash abi unlinked_binary now)))) sourceHash)
  = false.
Proof.
  unfold merge, decide_compile.
  destruct (currentArtifactString lc); cbn [JSON_parse get own_props].
  - rewrite lookup_insert_eq. cbn [get own_props mbind result_bind].
    rewrite lookup_insert_eq. unfold contractData, stale.
    cbn [get own_props mbind result_bind].
    rewrite lookup_insert_ne, lookup_insert_eq by done.
    cbn [strict_neq_string]. rewrite String.eqb_refl. cbn [negb].
    rewrite !lookup_insert_ne, lookup_insert_eq by done.
    cbn [strict_neq_number]. by rewrite Z.eqb_refl.
  - rewrite lookup_insert_ne, lookup_insert_eq by done.
    cbn [get own_props mbind result_bind].
    rewrite lookup_insert_eq. unfold contractData, stale.
    cbn [get own_props mbind result_bind].
    rewrite lookup_insert_ne, lookup_insert_eq by done.
    cbn [strict_neq_string]. rewrite String.eqb_refl. cbn [negb].
    rewrite !lookup_insert_ne, lookup_insert_eq by done.
    cbn [strict_neq_number]. by rewrite Z.eqb_refl.
Qed.

Lemma invocations_app (tr tr' : list event) :
  invocations (tr ++ tr') = invocations tr ++ invocations tr'.
Proof. apply omap_app. Qed.

(** ** Diagnostics *)

Lemma diagnostics_app (tr tr' : list event) :
  diagnostics (tr ++ tr') = diagnostics tr ++ diagnostics tr'.
Proof. apply omap_app. Qed.

Lemma report_once (msgs : list string) (errs : gset string) (tr : list event) :
  reported_once errs tr →
  reported_once (report msgs errs tr).1.1 (report msgs errs tr).1.2.
Proof.
  revert errs tr. induction msgs as [|m msgs IH]; intros errs tr Hinv; simpl; [done|].
  destruct (getNormalizedErrMsg m) as [msg|e]; [|done].
  case_decide as Hin; apply IH; [done|].
  destruct Hinv as [Hnd Hsub]. split.
  - rewrite diagnostics_app. simpl. apply NoDup_app. split; [done|]. split.
    + intros x Hx ->%list_elem_of_singleton. by apply Hin, Hsub.
    + apply NoDup_singleton.
  - intros x. rewrite diagnostics_app. simpl.
    intros [Hx| ->%list_elem_of_singleton]%elem_of_app; set_solver.
Qed.

Lemma compile_unit_once (now : Z) (name source sourceHash : string) (lc : locals)
    (errs : gset string) (tr : list event) :
  reported_once errs tr →
  reported_once (compile_unit now name source sourceHash lc errs tr).1.1
    (compile_unit now name source sourceHash lc errs tr).1.2.
Proof.
  intros Hinv. unfold compile_unit.
  destruct select_backend as [[solcVersion solcBin]|e]; [|done].
  assert (reported_once errs (tr ++ [Compiling name; Invoked name])) as Hinv'.
  { unfold reported_once. by rewrite diagnostics_app, app_nil_r. }
  destruct (compiled_errors _) as [msgs|]; [|done].
  pose proof (report_once msgs _ _ Hinv') as H.
  by destruct (report _ _ _) as [[errs1 tr1] r].
Qed.

Lemma step_once (st : state) (i : nat) (now : Z) :
  reported_once (errors st) (trace st) →
  reported_once (errors (step i now st)) (trace (step i now st)).
Proof.
  intros Hinv. unfold step.
  destruct (tasks st !! i) as [[name source|name path data| |e]|]; try done.
  - destruct (shouldCompile _); [|done].
    pose proof (compile_unit_once now name source (sourceHashOf source)
      (decide_compile (fs st !! artifactPath name) (sourceHashOf source)) _ _ Hinv) as H.
    by destruct (compile_unit _ _ _ _ _ _ _) as [[errs tr] [data|e]].
  - simpl. unfold reported_once. by rewrite diagnostics_app, app_nil_r.
Qed.

(** In a run, whatever the order of the turns, the console receives no
    normalised message twice. *)
Lemma diagnostics_once (files : gmap string text) (schedule : list (nat * Z)) :
  NoDup (diagnostics (trace (run schedule (compileAll sources files)))).
Proof.
  assert (∀ st, reported_once (errors st) (trace st) →
    reported_once (errors (run schedule st)) (trace (run schedule st))) as Hrun.
  { induction schedule as [|[i now] schedule IH]; intros st Hst; [done|].
    simpl. by apply IH, step_once. }
  apply Hrun. split; [constructor|]. by intros msg ?%elem_of_nil.
Qed.

Section Runs.

(** [sources] is what [getContractSources] finds in the contracts directory,
    a tree whose entries have file names. *)
Variable tree : node.
Variable log : list string.
Hypothesis tree_named : named tree.
Hypothesis discovered :
  getContractSources (contractsDir options) tree = OK (sources, log).

Lemma sources_named (name : string) : is_Some (sources !! name) → is_sol_name name.
Proof. by eapply getContractSources_named. Qed.

Lemma unit_lookup (i : nat) (name source : string) :
  map_to_list sources !! i = Some (name, source) → sources !! name = Some source.
Proof. intros H. apply elem_of_map_to_list, list_elem_of_lookup. eauto. Qed.

Lemma unit_index (i j : nat) (name source source' : string) :
  map_to_list sources !! i = Some (name, source) →
  map_to_list sources !! j = Some (name, source') → i = j.
Proof.
  intros Hi Hj. eapply (NoDup_lookup _ i j name (NoDup_fst_map_to_list sources));
    rewrite list_lookup_fmap; [by rewrite Hi | by rewrite Hj].
Qed.

Lemma other_path (i j : nat) (name name' source source' : string) :
  i ≠ j →
  map_to_list sources !! i = Some (name, source) →
  map_to_list sources !! j = Some (name', source') →
  artifactPath name ≠ artifactPath name'.
Proof.
  intros Hij Hi Hj Hp. apply Hij.
  apply artifactPath_inj in Hp as ->; [by eapply unit_index|..];
    apply sources_named; erewrite unit_lookup; eauto.
Qed.

Lemma fresh_insert (files : gmap string text) (path name source : string) (data : text) :
  path ≠ artifactPath name →
  fresh files name source → fresh (<[path := data]> files) name source.
Proof. intros Hp. unfold fresh. by rewrite lookup_insert_ne. Qed.

Lemma task_inv_insert (good : string → Prop) (files : gmap string text)
    (path name source : string) (data : text) (t : task) :
  path ≠ artifactPath name →
  task_inv good files name source t →
  task_inv good (<[path := data]> files) name source t.
Proof. intros Hp. destruct t; simpl; auto using fresh_insert. Qed.

(** The callbacks of a run after callback [j] has moved. *)
Lemma tasks_inv_insert (good : string → Prop) (files files' : gmap string text)
    (ts : list task) (j : nat) (t' : task) (name source : string) :
  (∀ i t, ts !! i = Some t →
     ∃ n s, map_to_list sources !! i = Some (n, s) ∧ task_inv good files n s t) →
  map_to_list sources !! j = Some (name, source) →
  task_inv good files' name source t' →
  (∀ i n s t, i ≠ j → map_to_list sources !! i = Some (n, s) →
     task_inv good files n s t → task_inv good files' n s t) →
  ∀ i t, <[j := t']> ts !! i = Some t →
    ∃ n s, map_to_list sources !! i = Some (n, s) ∧ task_inv good files' n s t.
Proof.
  intros I1 Hu Ht' Hother i t. rewrite list_lookup_insert.
  case_decide as Hd.
  - destruct Hd as [<- _]. intros [= <-]. eauto.
  - intros Hi. destruct (decide (i = j)) as [->|Hij].
    + destruct Hd. split; [done|]. by eapply lookup_lt_Some.
    + destruct (I1 _ _ Hi) as (n & s0 & Hn & Ht). eauto 10.
Qed.

(** A turn of the event loop keeps what a run maintains. *)
Lemma step_inv (good : string → Prop) (st : state) (j : nat) (now : Z) :
  run_inv good st → run_inv good (step j now st).
Proof.
  intros (I0 & I1 & I2 & I3).
  destruct (tasks st !! j) as [t|] eqn:Hj; [|unfold step; by rewrite Hj].
  destruct (I1 _ _ Hj) as (name & source & Hu & Ht).
  pose proof (unit_lookup _ _ _ Hu) as Hsrc.
  destruct t as [n s|n path data| |e]; [| |unfold step; by rewrite Hj..].
  - destruct Ht as [-> ->]. rewrite (step_read _ _ _ _ _ Hj). cbv zeta.
    destruct (shouldCompile _) eqn:Hsc.
    + assert (¬ good name) as Hng.
      { intros Hg. destruct (I2 _ _ Hsrc Hg) as [Hf _]. unfold fresh in Hf. congruence. }
      pose proof (compile_unit_invocations now name source (sourceHashOf source)
        (decide_compile (fs st !! artifactPath name) (sourceHashOf source))
        (errors st) (trace st)) as Hinv.
      assert (∀ n, n ∈ match select_backend source with OK _ => [name] | Throw _ => [] end
                   → n = name) as Hnew.
      { intros n. destruct select_backend; [by intros ->%list_elem_of_singleton|].
        by intros ?%elem_of_nil. }
      destruct (compile_unit _ _ _ _ _ _ _) as [[errs tr] r] eqn:Hc. simpl in Hinv.
      assert (run_inv good (State (fs st) errs tr
        (<[j := match r with
                | OK data => AwaitWrite name (artifactPath name) data
                | Throw e => Rejected e
                end]> (tasks st)))) as Hrun.
      { split; [|split; [|split]]; simpl.
        - by rewrite length_insert.
        - eapply tasks_inv_insert; [done..| |done].
          destruct r as [data|e]; [|done]. simpl.
          apply compile_unit_OK in Hc as (v & b & abi & bin & _ & ->).
          do 3 (split; [done|]). apply merge_fresh.
        - intros name' source' Hs' Hg. destruct (I2 _ _ Hs' Hg) as [Hf Hni].
          split; [done|]. rewrite Hinv. intros [Hin|Hin]%elem_of_app; [done|].
          apply Hnew in Hin as ->. done.
        - intros n. rewrite Hinv. intros [Hin|Hin]%elem_of_app; [by apply I3|].
          apply Hnew in Hin as ->. by rewrite Hsrc. }
      by destruct r.
    + split; [|split; [|done]]; simpl; [by rewrite length_insert|].
      by eapply tasks_inv_insert.
  - destruct Ht as (-> & -> & Hng & Hdata). rewrite (step_write _ _ _ _ _ _ Hj).
    split; [|split; [|split]]; simpl.
    + by rewrite length_insert.
    + eapply tasks_inv_insert; [done..| |].
      * simpl. unfold fresh. by rewrite lookup_insert_eq.
      * intros i n s t Hij Hn. apply task_inv_insert.
        by eapply (other_path j i); [intros ->|..].
    + intros name' source' Hs' Hg. destruct (I2 _ _ Hs' Hg) as [Hf Hni]. split.
      * apply fresh_insert; [|done]. intros Hp.
        apply artifactPath_inj in Hp as ->; [done|..]; apply sources_named;
          by eauto.
      * by rewrite invocations_app, app_nil_r.
    + intros n. rewrite invocations_app, app_nil_r. apply I3.
Qed.

Lemma run_inv_run (good : string → Prop) (schedule : list (nat * Z)) (st : state) :
  run_inv good st → run_inv good (run schedule st).
Proof.
  revert st. induction schedule as [|[j now] schedule IH]; intros st Hst; [done|].
  simpl. by apply IH, step_inv.
Qed.

Lemma run_inv_compileAll (good : string → Prop) (files : gmap string text) :
  (∀ name source, sources !! name = Some source → good name → fresh files name source) →
  run_inv good (compileAll sources files).
Proof.
  intros Hgood. split; [|split; [|split]]; simpl.
  - by rewrite length_fmap.
  - intros i t. rewrite list_lookup_fmap.
    destruct (map_to_list sources !! i) as [[name source]|] eqn:Hi; [|done].
    intros [= <-]. by exists name, source.
  - intros name source Hs Hg. split; [by eapply Hgood|]. by intros ?%elem_of_nil.
  - by intros name ?%elem_of_nil.
Qed.


End Runs.

End Properties.

(** ** Import resolution *)

(** C8 (as amended).  The callback the backend is given looks an import path
    up by its base name: a directory prefix does not matter; a base name that
    is a key gives the text of that key; a base name that is not a key, and
    not the name of a member every object inherits, gives a result without
    contents, not an exception; the captured mapping is left as it was. *)
Theorem C8_imports_by_base_name (sources : gmap string string)
    (dir name : string) :
  is_file_name name →
  createFindImports sources (dir +:+ "/" +:+ name) = createFindImports sources name
  ∧ (∀ source, sources !! name = Some source →
       contents (createFindImports sources (dir +:+ "/" +:+ name)) = Some (Text source))
  ∧ (sources !! name = None → name ∉ object_members →
       contents (createFindImports sources (dir +:+ "/" +:+ name)) = None)
  ∧ ∀ importPath, (findImports sources importPath).2 = sources.
Proof.
  intros Hname. unfold createFindImports, findImports, read_source. simpl.
  rewrite basename_dir, basename_name by done.
  split; [done|]. split; [by intros source ->|]. split; [|done].
  intros ->. by case_decide.
Qed.

(** ** The properties on the sample project *)

Lemma C1_sample :
  ∃ merged, sample_written = JsonText merged
    ∧ byTarget merged 1 = byTarget sample_prior 1
    ∧ ∀ now', fs (sample_step 0 now' (sample_step 0 7
                (compileAll sample_sources sample_files))) !! "artifacts/Foo.json"
              = Some (JsonText merged).
Proof.
  apply (C1_cross_target_isolation sample_keccak sample_binPaths sample_require
           sample_options sample_sources (compileAll sample_sources sample_files)
           0 7 "Foo.sol" sample_source "artifacts/Foo.json" sample_prior
           sample_written 1);
    [reflexivity | vm_compute; reflexivity | done | vm_compute; reflexivity].
Defined.

Lemma C9_sample :
  top_level sample_written !! "contract_name" = Some (JStr "Foo").
Proof.
  destruct (C9_other_fields_carried_over sample_keccak sample_binPaths sample_require
              sample_options sample_sources (compileAll sample_sources sample_files)
              0 7 "Foo.sol" sample_source "artifacts/Foo.json"
              (JsonText sample_prior) sample_written) as [Hfields _];
    [reflexivity | vm_compute; reflexivity | vm_compute; reflexivity |].
  by rewrite Hfields.
Defined.

(** An artifact file with a field [__proto__]: the unit is compiled, and the
    artifact its callback writes has the name of the contract and not that
    field. *)
Lemma C9_proto_field_dropped :
  tasks (sample_step 0 7 (compileAll sample_sources proto_files)) !! 0
  = Some (AwaitWrite "Foo.sol" "artifacts/Foo.json" proto_written)
  ∧ top_level (JsonText proto_prior) !! "__proto__" = Some (JObj {[ "version" := JNum 1 ]})
  ∧ top_level proto_written !! "__proto__" = None
  ∧ top_level proto_written !! "__proto__" ≠ top_level (JsonText proto_prior) !! "__proto__"
  ∧ top_level proto_written !! "contract_name" = Some (JStr "Foo").
Proof. by vm_compute. Qed.

Lemma C8_sample :
  contents (createFindImports sample_sources "./lib/Foo.sol") = Some (Text sample_source)
  ∧ contents (createFindImports sample_sources "./lib/Bar.sol") = None.
Proof.
  split.
  - apply (C8_imports_by_base_name sample_sources "./lib" "Foo.sol");
      [split; [done|by repeat constructor] | reflexivity].
  - apply (C8_imports_by_base_name sample_sources "./lib" "Bar.sol");
      [split; [done|by repeat constructor] | reflexivity |].
    apply (bool_decide_unpack ("Bar.sol" ∉ object_members)). by vm_compute.
Defined.

(** An import path whose base name is not a key of the mapping, and for
    which the callback gives a result with contents: the member of that name
    the mapping inherits. *)
Lemma C8_inherited_member :
  sample_sources !! "constructor" = None
  ∧ contents (createFindImports sample_sources "./lib/constructor")
    = Some (Member "constructor")
  ∧ contents (createFindImports sample_sources "./lib/constructor") ≠ None.
Proof. by vm_compute. Qed.



(** C3.  In the run over the sample project, [compileAll] has returned and
    the callback of [Foo.sol] has not yet read its artifact file; the file is
    written two turns of the event loop later. *)
Theorem C3_returns_before_tasks_settle :
  let st := compileAll sample_sources ∅ in
  tasks st = [AwaitRead "Foo.sol" sample_source]
  ∧ fs st !! "artifacts/Foo.json" = None
  ∧ (∃ data, tasks (sample_run [(0, 7%Z)] st) = [AwaitWrite "Foo.sol" "artifacts/Foo.json" data])
  ∧ is_Some (fs (sample_run [(0, 7%Z); (0, 8%Z)] st) !! "artifacts/Foo.json").
Proof.
  split; [by vm_compute|]. split; [by vm_compute|]. split.
  - eexists. vm_compute. reflexivity.
  - vm_compute. eauto.
Qed.

(** With a module at the path built from a missing entry, a unit whose
    version has no entry in the table is compiled all the same. *)
Lemma C6_unregistered_yet_selected :
  (∅ : gmap string string) !! "4.11.0" = None
  ∧ parseSolidityVersion sample_source = OK "4.11.0"
  ∧ select_backend ∅ stray_require sample_source = OK ("4.11.0", sample_solc)
  ∧ invocations (trace (step sample_keccak ∅ stray_require sample_options
                          sample_sources 0 7 (compileAll sample_sources ∅)))
    = ["Foo.sol"].
Proof. repeat split; vm_compute; reflexivity. Qed.


Lemma C6_sample :
  let st := compileAll mixed_sources ∅ in
  mixed_step 0 8 (mixed_step 1 7 st)
  = settle 1 (Rejected (ModuleNotFound "./solc/solc_bin/undefined")) (mixed_step 0 8 st).
Proof.
  intros st.
  apply (C6_unregistered_version sample_keccak sample_binPaths sample_require
           sample_options mixed_sources st 1 7 "Baz.sol"
           "pragma solidity ^4.8.0; contract Baz {}" "4.8.0");
    [vm_compute; reflexivity .. | done].
Defined.



(** ** Version tokens with long components *)

(** C10.  A declaration whose patch component has three digits resolves, to
    the version its first two patch digits spell. *)
Theorem C10_three_digit_patch :
  parseSolidityVersion "pragma solidity ^4.110.0;" = Throw VersionNotFound
  ∧ parseSolidityVersion "pragma solidity ^4.11.100;" = OK "4.11.10".
Proof. by vm_compute. Qed.

(** ** Diagnostics about a file with a dollar sign in its name *)

(** C7.  Two diagnostics that differ in the directory before the file name
    [A$&.sol] are not normalised to the same message: each gets its own path
    back in place of [$&], and a run that meets both hands both to the
    console.  With the file name [A.sol] they are normalised to one
    message. *)
Theorem C7_dollar_in_file_name :
  getNormalizedErrMsg "sub/dir/A$&.sol:3: Warning: x"
    = OK "Asub/dir/A$&.sol.sol:3: Warning: x"
  ∧ getNormalizedErrMsg "other/A$&.sol:3: Warning: x"
    = OK "Aother/A$&.sol.sol:3: Warning: x"
  ∧ diagnostics (trace (dollar_run [(0, 7%Z); (1, 7%Z)] (compileAll dollar_sources ∅)))
    = ["Aother/A$&.sol.sol:3: Warning: x"; "Asub/dir/A$&.sol.sol:3: Warning: x"]
  ∧ getNormalizedErrMsg "sub/dir/A.sol:3: Warning: x" = OK "A.sol:3: Warning: x"
  ∧ getNormalizedErrMsg "other/A.sol:3: Warning: x" = OK "A.sol:3: Warning: x".
Proof. by vm_compute. Qed.

(** * Further properties *)

(** ** Discovery *)

Lemma visit_last_wins (entries : listing) :
  ∀ dirPath sources log,
    (visit dirPath entries sources log).1
    = list_to_map (reverse (files_of_entries entries)) ∪ sources.
Proof.
  induction entries as [content|entries IH| |name child IHchild rest IHrest]
    using listing_node_ind
    with (P := λ dir, ∀ dirPath sources log,
                 getContractSources dirPath dir = OK (sources, log) →
                 sources = list_to_map (reverse (files_of dir))).
  - done.
  - intros dirPath sources log [= H]. simpl.
    pose proof (IH dirPath ∅ []) as Hvisit. rewrite H in Hvisit. simpl in Hvisit.
    by rewrite Hvisit, (right_id ∅ (∪)).
  - intros dirPath sources log. simpl. by rewrite (left_id ∅ (∪)).
  - intros dirPath sources log. simpl.
    rewrite reverse_app, list_to_map_app, <- (assoc_L (∪)).
    case_decide as Hext.
    + destruct child as [[source|]|]; rewrite IHrest.
      * change (reverse [(name, source)]) with [(name, source)]. simpl.
        by rewrite <- insert_union_l, (left_id ∅ (∪)).
      * change (reverse []) with (@nil (string * string)). simpl.
        by rewrite (left_id ∅ (∪)).
      * change (reverse []) with (@nil (string * string)). simpl.
        by rewrite (left_id ∅ (∪)).
    + destruct (getContractSources _ child) as [[nested lines]|e] eqn:Hnested;
        rewrite IHrest.
      * by rewrite (IHchild _ _ _ Hnested).
      * destruct child as [content|entries]; [|done].
        change (reverse (files_of (File content))) with (@nil (string * string)).
        simpl. by rewrite (left_id ∅ (∪)).
Qed.

Lemma getContractSources_last_wins (dirPath : string) (dir : node)
    (sources : gmap string string) (log : list string) :
  getContractSources dirPath dir = OK (sources, log) →
  sources = list_to_map (reverse (files_of dir)).
Proof.
  destruct dir as [content|entries]; [done|]. simpl. intros [= H].
  pose proof (visit_last_wins entries dirPath ∅ []) as Hvisit.
  rewrite H in Hvisit. simpl in Hvisit. by rewrite Hvisit, (right_id ∅ (∪)).
Qed.

(** X1.  The mapping [getContractSources] returns holds, for each name, the
    text of the readable [.sol] file of that name it visited last: a later
    entry of a directory, and a file of a subdirectory, override what was
    found before. *)
Theorem X1_discovery_last_wins (dirPath : string) (dir : node)
    (sources : gmap string string) (log : list string) :
  getContractSources dirPath dir = OK (sources, log) →
  sources = list_to_map (reverse (files_of dir))
  ∧ (∀ name source, sources !! name = Some source → (name, source) ∈ files_of dir)
  ∧ (∀ name source, (name, source) ∈ files_of dir → is_Some (sources !! name)).
Proof.
  intros H.
  apply getContractSources_last_wins in H as ->.
  split; [done|]. split.
  - intros name source Hs. apply elem_of_list_to_map_2 in Hs.
    by apply elem_of_reverse.
  - intros name source Hin.
    destruct (list_to_map (reverse (files_of dir)) !! name) as [x|] eqn:Hx; [done|].
    apply not_elem_of_list_to_map_2 in Hx. destruct Hx.
    apply list_elem_of_fmap. exists (name, source). split; [done|].
    by apply elem_of_reverse.
Qed.

Lemma X1_sample :
  nested_sources = list_to_map (reverse (files_of nested_tree)).
Proof.
  apply (X1_discovery_last_wins "contracts" nested_tree nested_sources
           ["Reading A.sol source..."; "Reading B.sol source...";
            "Reading A.sol source...";
            "contracts/README is not a directory or .sol file";
            "Could not find file at contracts/x.sol"]).
  by vm_compute.
Defined.

(** X2.  When the readable [.sol] files of the tree have different names, the
    mapping has exactly one entry for each of them: its name and its text. *)
Theorem X2_discovery_complete (dirPath : string) (dir : node)
    (sources : gmap string string) (log : list string) :
  getContractSources dirPath dir = OK (sources, log) →
  NoDup (files_of dir).*1 →
  size sources = length (files_of dir)
  ∧ ∀ name source, sources !! name = Some source ↔ (name, source) ∈ files_of dir.
Proof.
  intros H Hnd.
  apply getContractSources_last_wins in H as ->.
  assert (NoDup (reverse (files_of dir)).*1) as Hnd'.
  { by rewrite fmap_reverse, reverse_Permutation. }
  split.
  - by rewrite map_size_list_to_map, length_reverse.
  - intros name source. by rewrite <- elem_of_list_to_map, elem_of_reverse.
Qed.

Lemma X2_sample :
  size sample_sources = 1.
Proof.
  apply (X2_discovery_complete "contracts" sample_tree sample_sources
           ["Reading Foo.sol source..."]).
  - by vm_compute.
  - vm_compute. apply NoDup_singleton.
Defined.

(** X3.  In a tree whose entries have file names, every key of the mapping
    [getContractSources] returns is a file name with the extension [.sol],
    and the base name of the key without the extension is what is left of
    it: two keys never share an artifact path. *)
Theorem X3_discovered_names (options : CompilerOptions) (dirPath : string)
    (dir : node) (sources : gmap string string) (log : list string) :
  named dir →
  getContractSources dirPath dir = OK (sources, log) →
  (∀ name, is_Some (sources !! name) → is_sol_name name)
  ∧ ∀ name1 name2,
      is_Some (sources !! name1) → is_Some (sources !! name2) →
      artifactPath options name1 = artifactPath options name2 → name1 = name2.
Proof.
  intros Hnamed H.
  assert (∀ name, is_Some (sources !! name) → is_sol_name name) as Hsol
    by by eapply getContractSources_named.
  split; [done|]. intros name1 name2 H1 H2. apply artifactPath_inj; auto.
Qed.

Lemma X3_sample : is_sol_name "Foo.sol".
Proof.
  apply (X3_discovered_names sample_options "contracts" sample_tree sample_sources
           ["Reading Foo.sol source..."]).
  - simpl. split; [|done]. split; [done|]. by repeat constructor.
  - by vm_compute.
  - vm_compute. eauto.
Defined.

(** ** Normalisation of diagnostics *)

Lemma lang_path_regex (w : list ascii) (caps : captures) :
  lang path_regex w caps ↔
  ∃ w0, w = w0 ++ chars ".sol" ∧ Forall (λ c, any_char c = true) w0 ∧ caps = [w].
Proof.
  unfold path_regex. split.
  - intros (c & -> & L)%lang_Group_inv.
    apply lang_Seq_inv in L
      as (w0 & ? & ? & ? & -> & -> & [Hw0 ->]%lang_Star_inv & [-> ->]%lang_lit).
    by exists w0.
  - intros (w0 & -> & Hw0 & ->).
    apply lang_Group, (lang_Seq _ _ _ _ [] []); [by constructor|by apply lang_lit].
Qed.

(** X4.  [getNormalizedErrMsg] fails, with the error of the missing path,
    exactly on the messages in which [.sol] does not occur; on every other
    message it returns a message. *)
Theorem X4_message_without_path (errMsg : string) :
  let has_path := ∃ before after, chars errMsg = before ++ chars ".sol" ++ after in
  (getNormalizedErrMsg errMsg = Throw NoPathInMessage ↔ ¬ has_path)
  ∧ ((∃ msg, getNormalizedErrMsg errMsg = OK msg) ↔ has_path).
Proof.
  intros has_path. unfold getNormalizedErrMsg, str_match.
  destruct (search path_regex (chars errMsg) 0) as [m|] eqn:Hm; simpl.
  - apply search_Some in Hm as (before & after & Hs & L & _).
    apply lang_path_regex in L as (w0 & Hw & _).
    assert has_path as Hhas.
    { exists (before ++ w0), after. by rewrite Hs, Hw, <- !app_assoc. }
    split; split; try done; eauto.
  - assert (¬ has_path) as Hnot.
    { intros (before & after & Hs).
      eapply (search_None _ _ _ Hm before (chars ".sol") after); [done|].
      apply lang_path_regex. by exists []. }
    split; split; try done. by intros [msg ?].
Qed.

Lemma take_while_sat (p : ascii → bool) (l : list ascii) :
  Forall (λ c, p c = true) (take_while p l).
Proof.
  induction l as [|c l IH]; simpl; [done|]. destruct (p c) eqn:Hc; auto.
Qed.

(** The base name of a path that ends with [.sol]: its last portion. *)
Lemma basename_chars_split (w0 : list ascii) :
  ∃ d seg,
    w0 = d ++ seg
    ∧ Forall (λ c, is_slash c = false) seg
    ∧ basename_chars (w0 ++ chars ".sol") = seg ++ chars ".sol".
Proof.
  set (ns := λ c, negb (is_slash c)).
  exists (rev (drop_while ns (rev w0))), (rev (take_while ns (rev w0))).
  split; [|split].
  - by rewrite <- rev_app_distr, take_drop_while, rev_involutive.
  - apply List.Forall_rev. eapply Forall_impl; [apply take_while_sat|].
    intros c. unfold ns. by destruct (is_slash c).
  - unfold basename_chars. rewrite rev_app_distr. simpl. fold ns.
    by rewrite <- !app_assoc.
Qed.

(** What [getNormalizedErrMsg] returns for a message without a dollar sign
    that has a path on its first line: the message from the last portion of
    the path on. *)
Lemma normalized_shape (t : list ascii) (caps : captures) (rest : list ascii)
    (l : list (captures * list ascii)) :
  no_dollar t →
  exec path_regex t = (caps, rest) :: l →
  ∃ d seg,
    t = d ++ seg ++ chars ".sol" ++ rest
    ∧ Forall (λ c, any_char c = true) (d ++ seg)
    ∧ Forall (λ c, is_slash c = false) seg
    ∧ getNormalizedErrMsg (text_of t) = OK (text_of (seg ++ chars ".sol" ++ rest)).
Proof.
  intros Hdollar He.
  destruct (search_here _ _ _ _ _ He) as (Ht & L & _).
  apply lang_path_regex in L as (w0 & Hw & Hw0 & _).
  destruct (basename_chars_split w0) as (d & seg & Hsplit & Hseg & Hbase).
  exists d, seg. split; [|split; [|split]].
  - rewrite Ht at 1. by rewrite Hw, Hsplit, <- !app_assoc.
  - by rewrite <- Hsplit.
  - done.
  - assert (is_dir_prefix "") as Hdir by (split; [constructor|by left]).
    pose proof (normalized_prefix "" t caps rest l Hdir Hdollar He) as Hn.
    change ("" +:+ text_of t) with (text_of t) in Hn.
    by rewrite Hn, Hw, Hbase, <- app_assoc.
Qed.

(** The preferred match of [.*\.sol] ends at the same place after a prefix
    on the same line is taken away, when a match is left. *)
Lemma path_regex_tail (d seg r t' : list ascii) (caps : captures)
    (rest : list ascii) (l : list (captures * list ascii)) :
  Forall (λ c, any_char c = true) d →
  Forall (λ c, any_char c = true) seg →
  t' = seg ++ chars ".sol" ++ r →
  exec path_regex (d ++ t') = (caps, rest) :: l →
  ∃ caps' l', exec path_regex t' = (caps', rest) :: l'.
Proof.
  intros Hd Hseg Ht'. unfold path_regex. rewrite !exec_Group.
  destruct (exec (Seq (Star any_char) (lit (chars ".sol"))) (d ++ t'))
    as [|[c r0] l0] eqn:Hinner; [done|].
  intros [= _ <- _].
  assert (lang (Seq (Star any_char) (lit (chars ".sol"))) (seg ++ chars ".sol") []) as L.
  { apply (lang_Seq _ _ _ _ [] []); [by constructor|by apply lang_lit]. }
  pose proof (exec_complete _ _ _ L r) as Hin.
  rewrite <- app_assoc, <- Ht' in Hin.
  destruct (exec (Seq (Star any_char) (lit (chars ".sol"))) t')
    as [|x l1] eqn:Hinner'; [done|].
  destruct (star_seq_head any_char (lit (chars ".sol")) d t' x l1 Hd Hinner')
    as [l2 Hhead].
  rewrite Hinner in Hhead. injection Hhead as <- _.
  simpl. eauto.
Qed.

(** X5.  Two diagnostics without a dollar sign that differ in the directory
    prefix before a file name are normalised to the same message, the
    message the diagnostic without a prefix is normalised to, and that
    message is normalised to itself. *)
Theorem X5_normalisation_removes_directories (dir1 dir2 stem rest : string) :
  is_dir_prefix dir1 → is_dir_prefix dir2 →
  Forall (λ c, any_char c = true) (chars stem) →
  no_dollar (chars (stem +:+ ".sol" +:+ rest)) →
  ∃ msg,
    getNormalizedErrMsg (dir1 +:+ stem +:+ ".sol" +:+ rest) = OK msg
    ∧ getNormalizedErrMsg (dir2 +:+ stem +:+ ".sol" +:+ rest) = OK msg
    ∧ getNormalizedErrMsg (stem +:+ ".sol" +:+ rest) = OK msg
    ∧ getNormalizedErrMsg msg = OK msg.
Proof.
  intros Hdir1 Hdir2 Hstem Hdollar.
  set (t := chars (stem +:+ ".sol" +:+ rest)) in *.
  assert (lang path_regex (chars stem ++ chars ".sol") [chars stem ++ chars ".sol"]) as L
    by (apply lang_path_regex; by exists (chars stem)).
  pose proof (exec_complete _ _ _ L (chars rest)) as Hin.
  assert ((chars stem ++ chars ".sol") ++ chars rest = t) as Ht
    by (subst t; by rewrite !chars_app, <- app_assoc).
  rewrite Ht in Hin.
  destruct (exec path_regex t) as [|[caps rest'] l] eqn:He; [done|].
  destruct (normalized_shape t caps rest' l Hdollar He)
    as (d & seg & Hsplit & Hany & Hseg & Hn).
  apply Forall_app in Hany as [Hd Hseg'].
  set (t' := seg ++ chars ".sol" ++ rest') in *.
  rewrite Hsplit in He.
  destruct (path_regex_tail d seg rest' t' caps rest' l Hd Hseg' eq_refl He)
    as (caps' & l' & He').
  assert (no_dollar t') as Hdollar'.
  { unfold no_dollar in *. rewrite Hsplit in Hdollar.
    by apply Forall_app in Hdollar as [_ ?]. }
  assert (is_dir_prefix "") as Hempty by (split; [constructor|by left]).
  rewrite <- Hsplit in He.
  exists (text_of t'). rewrite <- (text_of_chars (stem +:+ ".sol" +:+ rest)). fold t.
  assert (∀ dir, is_dir_prefix dir → getNormalizedErrMsg (dir +:+ text_of t) = OK (text_of t'))
    as Hdirs.
  { intros dir Hdir. rewrite (normalized_prefix dir t caps rest' l Hdir Hdollar He).
    pose proof (normalized_prefix "" t caps rest' l Hempty Hdollar He) as H0.
    change ("" +:+ text_of t) with (text_of t) in H0. by rewrite <- H0. }
  split; [by apply Hdirs|]. split; [by apply Hdirs|]. split; [done|].
  pose proof (normalized_prefix "" t' caps' rest' l' Hempty Hdollar' He') as Hn'.
  change ("" +:+ text_of t') with (text_of t') in Hn'. rewrite Hn'.
  rewrite (take_matched t' (seg ++ chars ".sol") rest')
    by (subst t'; by rewrite <- app_assoc).
  rewrite basename_chars_name by (apply Forall_app; auto using no_slash_sol).
  by rewrite <- app_assoc.
Qed.

Lemma X5_sample :
  ∃ msg,
    getNormalizedErrMsg "sub/dir/A.sol:3: Warning: x" = OK msg
    ∧ getNormalizedErrMsg "other/A.sol:3: Warning: x" = OK msg
    ∧ getNormalizedErrMsg "A.sol:3: Warning: x" = OK msg
    ∧ getNormalizedErrMsg msg = OK msg.
Proof.
  apply (X5_normalisation_removes_directories "sub/dir/" "other/" "A" ":3: Warning: x").
  - split; [by repeat constructor|]. right. by exists "sub/dir".
  - split; [by repeat constructor|]. right. by exists "other".
  - by repeat constructor.
  - by repeat constructor.
Defined.

(** A text that starts with a match of one-line characters and goes on, after
    a line, with a line terminator or nothing: the match is within the line. *)
Lemma within_line (p : ascii → bool) (w r line tail : list ascii) :
  Forall (λ c, p c = true) w →
  w ++ r = line ++ tail →
  tail = [] ∨ (∃ c tail', tail = c :: tail' ∧ p c = false) →
  ∃ k, line = w ++ k.
Proof.
  intros Hw. revert line. induction Hw as [|a w Ha _ IH]; intros line Heq Htail.
  - by exists line.
  - destruct line as [|b line]; simpl in Heq.
    + destruct Htail as [->|(c & tail' & -> & Hc)]; [done|].
      injection Heq as -> _. congruence.
    + injection Heq as <- Heq. destruct (IH line Heq Htail) as [k ->]. by exists k.
Qed.

(** X6.  A diagnostic without a dollar sign whose first line names a file
    and has no directory separator is normalised to itself. *)
Theorem X6_message_without_directory (stem more tail : string) :
  let line := stem +:+ ".sol" +:+ more in
  Forall (λ c, any_char c = true) (chars stem) →
  Forall (λ c, is_slash c = false) (chars line) →
  tail = "" ∨ (∃ c tail', tail = String c tail' ∧ is_line_terminator c = true) →
  no_dollar (chars (line +:+ tail)) →
  getNormalizedErrMsg (line +:+ tail) = OK (line +:+ tail).
Proof.
  intros line Hstem Hslash Htail Hdollar.
  set (t := chars (line +:+ tail)) in *.
  assert (lang path_regex (chars stem ++ chars ".sol") [chars stem ++ chars ".sol"]) as L
    by (apply lang_path_regex; by exists (chars stem)).
  pose proof (exec_complete _ _ _ L (chars more ++ chars tail)) as Hin.
  assert ((chars stem ++ chars ".sol") ++ chars more ++ chars tail = t) as Ht
    by (subst t line; by rewrite !chars_app, <- !app_assoc).
  rewrite Ht in Hin.
  destruct (exec path_regex t) as [|[caps rest] l] eqn:He; [done|].
  destruct (search_here _ _ _ _ _ He) as (Hsplit & Lw & _).
  set (w := take (length t - length rest) t) in *.
  apply lang_path_regex in Lw as (w0 & Hw & Hw0 & _).
  assert (Forall (λ c, any_char c = true) w) as Hany.
  { rewrite Hw. apply Forall_app. split; [done|]. by repeat constructor. }
  destruct (within_line any_char w rest (chars line) (chars tail) Hany) as [k Hk].
  { rewrite <- Hsplit. subst t. by rewrite chars_app. }
  { destruct Htail as [->|(c & tail' & -> & Hc)]; [by left|right].
    exists c, (chars tail'). split; [done|]. unfold any_char. by rewrite Hc. }
  assert (is_dir_prefix "") as Hempty by (split; [constructor|by left]).
  pose proof (normalized_prefix "" t caps rest l Hempty Hdollar He) as Hn.
  change ("" +:+ text_of t) with (text_of t) in Hn. fold w in Hn.
  rewrite basename_chars_name, <- Hsplit in Hn.
  2:{ rewrite Hk in Hslash. by apply Forall_app in Hslash as [? _]. }
  subst t. by rewrite text_of_chars in Hn.
Qed.

Lemma X6_sample :
  getNormalizedErrMsg "Token.sol:6:46: Warning: Unused local variable"
  = OK "Token.sol:6:46: Warning: Unused local variable".
Proof.
  apply (X6_message_without_directory "Token" ":6:46: Warning: Unused local variable" "").
  - by repeat constructor.
  - by repeat constructor.
  - by left.
  - by repeat constructor.
Defined.

(** ** Runs *)

Section MoreProperties.

Variable keccak : string → string.
Variable binPaths : gmap string string.
Variable require : string → option Backend.
Variable options : CompilerOptions.
Variable sources : gmap string string.

Local Abbreviation step := (step keccak binPaths require options sources).
Local Abbreviation run := (run keccak binPaths require options sources).
Local Abbreviation decide_compile := (decide_compile options).
Local Abbreviation compile_unit := (compile_unit binPaths require options sources).
Local Abbreviation select_backend := (select_backend binPaths require).
Local Abbreviation artifactPath := (artifactPath options).
Local Abbreviation sourceHashOf := (sourceHashOf keccak).
Local Abbreviation fresh := (fresh keccak options).

(** *** Diagnostics of a run *)

Lemma getNormalizedErrMsg_Throw (errMsg : string) (e : error) :
  getNormalizedErrMsg errMsg = Throw e → e = NoPathInMessage.
Proof.
  unfold getNormalizedErrMsg. destruct (match_elem _ _); [done|]. by intros [= <-].
Qed.






Lemma report_Throw (msgs : list string) (errs : gset string) (tr : list event)
    (m : string) (e : error) :
  m ∈ msgs → getNormalizedErrMsg m = Throw e →
  (report msgs errs tr).2 = Throw NoPathInMessage.
Proof.
  revert errs tr. induction msgs as [|m0 msgs IH]; intros errs tr Hin Hm; simpl.
  { by apply elem_of_nil in Hin. }
  destruct (getNormalizedErrMsg m0) as [n|e0] eqn:Hm0.
  - apply elem_of_cons in Hin as [->|Hin]; [congruence|]. case_decide; by apply IH.
  - by apply getNormalizedErrMsg_Throw in Hm0 as ->.
Qed.

(** X8.  When the backend has, among its messages for a unit, one without a
    path, the callback of the unit ends with the error of the missing path
    and writes no artifact, whatever the backend compiled. *)
Theorem X8_message_without_path_ends_callback (st : state) (i : nat) (now : Z)
    (name source solcVersion : string) (solcBin : Backend) (msgs : list string)
    (m : string) :
  tasks st !! i = Some (AwaitRead name source) →
  shouldCompile (decide_compile (fs st !! artifactPath name) (sourceHashOf source)) = true →
  select_backend source = OK (solcVersion, solcBin) →
  compiled_errors (solcBin {[name := source]} (optimizerEnabled options)
                     (createFindImports sources)) = Some msgs →
  m ∈ msgs →
  getNormalizedErrMsg m = Throw NoPathInMessage →
  tasks (step i now st) !! i = Some (Rejected NoPathInMessage)
  ∧ (∀ now', step i now' (step i now st) = step i now st)
  ∧ fs (step i now st) = fs st.
Proof.
  intros Hi Hstale Hsel Herrors Hm Hthrow.
  pose proof (lookup_lt_Some _ _ _ Hi) as Hlt.
  assert (∃ errs tr, step i now st
    = State (fs st) errs tr (<[i := Rejected NoPathInMessage]> (tasks st)))
    as (errs & tr & Hstep).
  { rewrite (step_read _ _ _ _ _ _ _ _ _ _ Hi). cbv zeta. rewrite Hstale.
    unfold compile_unit. rewrite Hsel, Herrors.
    pose proof (report_Throw msgs (errors st)
      (trace st ++ [Compiling name; Invoked name]) m _ Hm Hthrow) as Hr.
    destruct (report _ _ _) as [[errs1 tr1] r]. simpl in Hr. subst r. simpl. eauto. }
  rewrite Hstep. simpl. split; [by rewrite list_lookup_insert_eq|]. split; [|done].
  intros now'. unfold step. simpl. by rewrite list_lookup_insert_eq.
Qed.

(** *** The artifact a callback writes *)

Lemma build_artifact_entry (now : Z) (name sourceHash solcVersion : string)
    (compiled : Compiled) (lc : locals) (data : text) :
  build_artifact options now name sourceHash solcVersion compiled lc = OK data →
  ∃ outputs output abi,
    compiled_contracts compiled = Some outputs
    ∧ outputs !! (name +:+ ":" +:+ basename_ext name ".sol") = Some output
    ∧ interface output = JsonText abi
    ∧ data = JsonText (merge options lc (basename_ext name ".sol")
               (contractData options solcVersion sourceHash abi
                  ("0x" +:+ bytecode output) now)).
Proof.
  unfold build_artifact.
  destruct (compiled_contracts compiled) as [outputs|]; simpl; [|done].
  destruct (outputs !! _) as [output|] eqn:Hout; simpl; [|done].
  destruct (interface output) as [abi|other] eqn:Habi; simpl; [|done].
  intros [= <-]. by exists outputs, output, abi.
Qed.

Lemma compile_unit_entry (now : Z) (name source sourceHash : string) (lc : locals)
    (errs errs' : gset string) (tr tr' : list event) (data : text) :
  compile_unit now name source sourceHash lc errs tr = (errs', tr', OK data) →
  ∃ solcVersion solcBin outputs output abi,
    select_backend source = OK (solcVersion, solcBin)
    ∧ compiled_contracts (solcBin {[name := source]} (optimizerEnabled options)
                            (createFindImports sources)) = Some outputs
    ∧ outputs !! (name +:+ ":" +:+ basename_ext name ".sol") = Some output
    ∧ interface output = JsonText abi
    ∧ data = JsonText (merge options lc (basename_ext name ".sol")
               (contractData options solcVersion sourceHash abi
                  ("0x" +:+ bytecode output) now)).
Proof.
  unfold compile_unit.
  destruct select_backend as [[solcVersion solcBin]|e]; [|done].
  assert (∀ r : result unit,
    (r ≫= λ _, build_artifact options now name sourceHash solcVersion
       (solcBin {[name := source]} (optimizerEnabled options) (createFindImports sources)) lc)
    = OK data →
    build_artifact options now name sourceHash solcVersion
       (solcBin {[name := source]} (optimizerEnabled options) (createFindImports sources)) lc
    = OK data) as Hbind by (by intros [[]|]).
  destruct (compiled_errors _) as [msgs|].
  - destruct (report _ _ _) as [[errs1 tr1] r]. intros [= _ _ H%Hbind].
    apply build_artifact_entry in H as (outputs & output & abi & ? & ? & ? & ?).
    by exists solcVersion, solcBin, outputs, output, abi.
  - intros [= _ _ H].
    apply build_artifact_entry in H as (outputs & output & abi & ? & ? & ? & ?).
    by exists solcVersion, solcBin, outputs, output, abi.
Qed.

(** X9.  The artifact a callback writes holds, for the target of the run, an
    entry with the version the source declares, the digest of the source,
    the optimizer flag of the run, the interface and the binary the backend
    gave for the contract named after the file, and the time of the turn;
    when the unit had no artifact file, the artifact is the name of the
    contract and that entry, and nothing else; the file then holds, once the
    write is done, what the callback wrote. *)
Theorem X9_written_entry (st : state) (i : nat) (now : Z)
    (name source path : string) (data : text) :
  tasks st !! i = Some (AwaitRead name source) →
  tasks (step i now st) !! i = Some (AwaitWrite name path data) →
  ∃ merged solcVersion solcBin outputs output abi,
    data = JsonText merged
    ∧ path = artifactPath name
    ∧ select_backend source = OK (solcVersion, solcBin)
    ∧ parseSolidityVersion source = OK solcVersion
    ∧ compiled_contracts (solcBin {[name := source]} (optimizerEnabled options)
                            (createFindImports sources)) = Some outputs
    ∧ outputs !! (name +:+ ":" +:+ basename_ext name ".sol") = Some output
    ∧ interface output = JsonText abi
    ∧ byTarget merged (networkId options)
      = Some (JObj (<["solc_version" := JStr solcVersion]>
                   (<["keccak256" := JStr ("0x" +:+ keccak source)]>
                   (<["optimizer_enabled" := JNum (optimizerEnabled options)]>
                   (<["abi" := abi]>
                   (<["unlinked_binary" := JStr ("0x" +:+ bytecode output)]>
                   (<["updated_at" := JNum now]> ∅)))))))
    ∧ (fs st !! artifactPath name = None →
       ∃ entry, byTarget merged (networkId options) = Some entry
         ∧ merged = JObj (<["contract_name" := JStr (basename_ext name ".sol")]>
                         (<["networks" :=
                              JObj (<[pretty (networkId options) := entry]> ∅)]> ∅)))
    ∧ ∀ now', fs (step i now' (step i now st)) !! artifactPath name = Some data.
Proof.
  intros Hi Hw. pose proof (lookup_lt_Some _ _ _ Hi) as Hlt. revert Hw.
  rewrite (step_read _ _ _ _ _ _ _ _ _ _ Hi). cbv zeta.
  destruct (shouldCompile _) eqn:Hstale; simpl.
  2:{ by rewrite list_lookup_insert_eq. }
  destruct (compile_unit _ _ _ _ _ _ _) as [[errs tr] [artifactString|e]] eqn:Hc; simpl.
  2:{ by rewrite list_lookup_insert_eq. }
  rewrite list_lookup_insert_eq by done. intros [= <- <-].
  apply compile_unit_entry in Hc
    as (v & b & outputs & output & abi & Hsel & Hout & Hlook & Habi & ->).
  assert (parseSolidityVersion source = OK v) as Hv.
  { unfold select_backend in Hsel.
    destruct (parseSolidityVersion source) as [v'|]; [|done]. simpl in Hsel.
    destruct (require _); [|done]. by injection Hsel as ->. }
  eexists _, v, b, outputs, output, abi.
  split; [done|]. split; [done|]. do 5 (split; [done|]).
  assert (∀ lc, byTarget (merge options lc (basename_ext name ".sol")
      (contractData options v (sourceHashOf source) abi ("0x" +:+ bytecode output) now))
      (networkId options)
    = Some (contractData options v (sourceHashOf source) abi
              ("0x" +:+ bytecode output) now)) as Hentry.
  { intros lc. unfold merge, byTarget.
    destruct (currentArtifactString lc); simpl.
    - rewrite lookup_insert_eq. simpl. by rewrite lookup_insert_eq.
    - rewrite lookup_insert_ne, lookup_insert_eq by done. simpl.
      by rewrite lookup_insert_eq. }
  split; [by rewrite Hentry|]. split.
  - intros Hnone. eexists. split; [by rewrite Hentry|]. by rewrite Hnone.
  - intros now'. unfold step at 1. simpl. rewrite list_lookup_insert_eq by done.
    simpl. by rewrite lookup_insert_eq.
Qed.

(** *** Runs over files that are up to date *)



(** *** The end of a run *)

Lemma step_turns_left (st : state) (i j : nat) (now : Z) :
  length (tasks (step j now st)) = length (tasks st)
  ∧ from_option turns_left 0 (tasks (step j now st) !! i)
    ≤ from_option turns_left 0 (tasks st !! i) - (if decide (i = j) then 1 else 0).
Proof.
  assert (∀ t' : task,
    S (turns_left t') ≤ from_option turns_left 0 (tasks st !! j) →
    from_option turns_left 0 (<[j := t']> (tasks st) !! i)
    ≤ from_option turns_left 0 (tasks st !! i) - (if decide (i = j) then 1 else 0))
    as Hset.
  { intros t' Hj. case_decide as Hij.
    - subst i. destruct (tasks st !! j) as [t|] eqn:Ht; [|simpl in Hj; lia].
      rewrite list_lookup_insert_eq by (by eapply lookup_lt_Some). simpl in *. lia.
    - rewrite list_lookup_insert_ne by done. lia. }
  destruct (tasks st !! j) as [[name source|name path data| |e]|] eqn:Hj;
    [| |unfold step; rewrite Hj; (split; [done|]);
         case_decide; [subst i; rewrite Hj; simpl|]; lia..].
  - rewrite (step_read _ _ _ _ _ _ _ _ _ _ Hj). cbv zeta.
    destruct (shouldCompile _).
    + destruct (compile_unit _ _ _ _ _ _ _) as [[errs tr] [data|e]]; simpl;
        rewrite length_insert; (split; [done|]); apply Hset; simpl; lia.
    + simpl. rewrite length_insert. split; [done|]. apply Hset; simpl; lia.
  - rewrite (step_write _ _ _ _ _ _ _ _ _ _ _ Hj). simpl. rewrite length_insert.
    split; [done|]. apply Hset; simpl; lia.
Qed.

Lemma run_turns_left (schedule : list (nat * Z)) (st : state) (i : nat) :
  length (tasks (run schedule st)) = length (tasks st)
  ∧ from_option turns_left 0 (tasks (run schedule st) !! i)
    ≤ from_option turns_left 0 (tasks st !! i) - turns_of i schedule.
Proof.
  revert st. induction schedule as [|[j now] schedule IH]; intros st; simpl.
  { split; [done|]. unfold turns_of. simpl. lia. }
  destruct (IH (step j now st)) as [Hlen Hle].
  destruct (step_turns_left st i j now) as [Hlen' Hle'].
  split; [congruence|].
  unfold turns_of in *. rewrite filter_cons. simpl.
  repeat case_decide; simpl; try congruence; lia.
Qed.

(** X11.  A callback ends within two of its turns: after a schedule that
    gives two turns to every callback, in any order and among any other
    turns, every callback of the run has resolved or been rejected. *)
Theorem X11_run_ends (files : gmap string text) (schedule : list (nat * Z)) :
  (∀ i, i < size sources → 2 ≤ turns_of i schedule) →
  settled (run schedule (compileAll sources files)).
Proof.
  intros Hfair. apply Forall_lookup. intros i t Hi.
  destruct (run_turns_left schedule (compileAll sources files) i) as [Hlen Hle].
  rewrite Hi in Hle. cbn [from_option] in Hle.
  assert (i < size sources) as Hlt.
  { apply lookup_lt_Some in Hi. rewrite Hlen in Hi. simpl in Hi.
    by rewrite length_fmap, length_map_to_list in Hi. }
  specialize (Hfair i Hlt).
  assert (turns_left t = 0) as Ht.
  { assert (∀ o : option task, from_option turns_left 0 o ≤ 2) as Hmax
      by (intros [[]|]; simpl; lia).
    specialize (Hmax (tasks (compileAll sources files) !! i)). lia. }
  destruct t; simpl in Ht; try lia; eauto.
Qed.

(** *** The files a run touches *)

(** X12.  A run writes no file but the artifact files of its units: every
    other path holds, after any turns, what it held before. *)
Theorem X12_other_files_untouched (files : gmap string text)
    (schedule : list (nat * Z)) (path : string) :
  (∀ name, is_Some (sources !! name) → path ≠ artifactPath name) →
  fs (run schedule (compileAll sources files)) !! path = files !! path.
Proof.
  intros Hpath.
  set (inv := λ st : state,
    fs st !! path = files !! path
    ∧ Forall (λ t, match t with
                   | AwaitRead name _ => is_Some (sources !! name)
                   | AwaitWrite _ p _ => p ≠ path
                   | _ => True
                   end) (tasks st)).
  assert (∀ st, inv st → inv (run schedule st)) as Hrun.
  { induction schedule as [|[i now] schedule IH]; intros st Hst; [done|].
    simpl. apply IH. destruct Hst as (Hfs & Htasks).
    destruct (tasks st !! i) as [t|] eqn:Hi; [|unfold step; by rewrite Hi].
    pose proof (proj1 (Forall_lookup _ _) Htasks i t Hi) as Ht.
    destruct t as [name source|name p data| |e]; [| |unfold step; by rewrite Hi..].
    - rewrite (step_read _ _ _ _ _ _ _ _ _ _ Hi). cbv zeta.
      destruct (shouldCompile _).
      + destruct (compile_unit _ _ _ _ _ _ _) as [[errs tr] [data|e]];
          (split; [done|]); simpl; apply Forall_insert; try done.
        intros Heq. by apply (Hpath name).
      + split; [done|]. simpl. by apply Forall_insert.
    - rewrite (step_write _ _ _ _ _ _ _ _ _ _ _ Hi). split; simpl.
      + by rewrite lookup_insert_ne.
      + by apply Forall_insert. }
  apply Hrun. split; [done|]. simpl. apply Forall_fmap, Forall_forall.
  intros [name source] Hin. simpl. apply elem_of_map_to_list in Hin. by rewrite Hin.
Qed.

(** *** The invocations of a run *)

Lemma step_invoked_once (st : state) (j : nat) (now : Z) :
  invoked_once sources st → invoked_once sources (step j now st).
Proof.
  intros (I1 & I2 & I3).
  destruct (tasks st !! j) as [t|] eqn:Hj; [|unfold step; by rewrite Hj].
  destruct (I1 _ _ Hj) as (name & source & Hu & Ht).
  assert (∀ fs' errs' tr' t' extra,
    invocations tr' = invocations (trace st) ++ extra →
    (extra = [] ∨ extra = [name] ∧ name ∉ invocations (trace st)) →
    (∀ n s, t' ≠ AwaitRead n s) →
    invoked_once sources (State fs' errs' tr' (<[j := t']> (tasks st)))) as Hupd.
  { intros fs' errs' tr' t' extra Htr Hextra Ht'. split; [|split]; simpl.
    - intros i t0. rewrite list_lookup_insert. case_decide as Hd.
      + destruct Hd as [<- _]. intros [= <-]. exists name, source. split; [done|].
        intros n s Heq. by destruct (Ht' n s).
      + intros Hi. destruct (decide (i = j)) as [->|Hij].
        { destruct Hd. split; [done|]. by eapply lookup_lt_Some. }
        destruct (I1 _ _ Hi) as (n' & s' & Hn' & Hr'). exists n', s'. split; [done|].
        intros n s Heq. destruct (Hr' n s Heq) as [-> Hni]. split; [done|].
        rewrite Htr. intros [Hin|Hin]%elem_of_app; [done|].
        destruct Hextra as [->|[-> _]]; [by apply elem_of_nil in Hin|].
        apply list_elem_of_singleton in Hin as ->.
        apply Hij. by eapply unit_index.
    - rewrite Htr. destruct Hextra as [->|[-> Hni]]; [by rewrite app_nil_r|].
      apply NoDup_app. split; [done|]. split; [|apply NoDup_singleton].
      by intros x Hx ->%list_elem_of_singleton.
    - intros n. rewrite Htr. intros [Hin|Hin]%elem_of_app; [by apply I3|].
      destruct Hextra as [->|[-> _]]; [by apply elem_of_nil in Hin|].
      apply list_elem_of_singleton in Hin as ->. erewrite unit_lookup; eauto. }
  destruct t as [n s|n path data| |e]; [| |unfold step; by rewrite Hj..].
  - destruct (Ht n s eq_refl) as [-> Hni].
    rewrite (step_read _ _ _ _ _ _ _ _ _ _ Hj). cbv zeta.
    destruct (shouldCompile _).
    + pose proof (compile_unit_invocations binPaths require options sources now name s
        (sourceHashOf s) (decide_compile (fs st !! artifactPath name) (sourceHashOf s))
        (errors st) (trace st)) as Hinv.
      destruct (compile_unit _ _ _ _ _ _ _) as [[errs tr] r]. simpl in Hinv.
      destruct r; apply (Hupd _ _ _ _ _ Hinv); try done;
        destruct select_backend; auto.
    + apply (Hupd _ _ _ _ []); [by rewrite app_nil_r|by left|done].
  - rewrite (step_write _ _ _ _ _ _ _ _ _ _ _ Hj).
    apply (Hupd _ _ _ _ []); [|by left|done].
    by rewrite invocations_app.
Qed.

(** X13.  In a run, whatever the order of the turns, no unit is handed to the
    backend twice, every unit handed to it is a discovered one, and a unit
    whose callback has not read its artifact file has not been handed to
    it. *)
Theorem X13_invoked_at_most_once (files : gmap string text)
    (schedule : list (nat * Z)) :
  let st := run schedule (compileAll sources files) in
  NoDup (invocations (trace st))
  ∧ (∀ name, name ∈ invocations (trace st) → is_Some (sources !! name))
  ∧ ∀ i name source, tasks st !! i = Some (AwaitRead name source) →
      name ∉ invocations (trace st).
Proof.
  assert (∀ st, invoked_once sources st → invoked_once sources (run schedule st))
    as Hrun.
  { induction schedule as [|[j now] schedule IH]; intros st Hst; [done|].
    simpl. by apply IH, step_invoked_once. }
  destruct (Hrun (compileAll sources files)) as (I1 & I2 & I3).
  { split; [|split]; simpl.
    - intros i t. rewrite list_lookup_fmap.
      destruct (map_to_list sources !! i) as [[name source]|] eqn:Hi; [|done].
      intros [= <-]. exists name, source. split; [done|].
      intros n s [= <- <-]. split; [done|]. by intros ?%elem_of_nil.
    - constructor.
    - by intros n ?%elem_of_nil. }
  cbv zeta. split; [done|]. split; [done|].
  intros i name source Hi. destruct (I1 _ _ Hi) as (n & s & _ & Hr).
  by destruct (Hr _ _ eq_refl) as [-> Hni].
Qed.

(** *** Units of a discovered tree *)

Lemma report_result (msgs : list string) (errs errs' : gset string)
    (tr tr' : list event) :
  (report msgs errs tr).2 = (report msgs errs' tr').2.
Proof.
  revert errs errs' tr tr'. induction msgs as [|m msgs IH]; intros; simpl; [done|].
  destruct (getNormalizedErrMsg m); [|done].
  repeat case_decide; apply IH.
Qed.

(** What a callback hands to [writeFileAsync], or the exception that ends it,
    does not depend on the console or on the [errors] object. *)
Lemma compile_unit_result (now : Z) (name source sourceHash : string) (lc : locals)
    (errs errs' : gset string) (tr tr' : list event) :
  (compile_unit now name source sourceHash lc errs tr).2
  = (compile_unit now name source sourceHash lc errs' tr').2.
Proof.
  unfold compile_unit.
  destruct select_backend as [[solcVersion solcBin]|e]; [|done].
  destruct (compiled_errors _) as [msgs|]; [|done].
  pose proof (report_result msgs errs errs' (tr ++ [Compiling name; Invoked name])
                (tr' ++ [Compiling name; Invoked name])) as H.
  destruct (report msgs errs _) as [[errs1 tr1] r1].
  destruct (report msgs errs' _) as [[errs2 tr2] r2]. simpl in *. by subst.
Qed.

Lemma step_tasks_other (st : state) (i j : nat) (now : Z) :
  j ≠ i → tasks (step j now st) !! i = tasks st !! i.
Proof.
  intros Hji. unfold step.
  destruct (tasks st !! j) as [[name source|name path data| |e]|]; try done.
  - destruct (shouldCompile _); simpl.
    + destruct (compile_unit _ _ _ _ _ _ _) as [[errs tr] [data|e]]; simpl;
        by rewrite list_lookup_insert_ne.
    + by rewrite list_lookup_insert_ne.
  - simpl. by rewrite list_lookup_insert_ne.
Qed.

Section MoreRuns.

(** [sources] is what [getContractSources] finds in the contracts directory,
    a tree whose entries have file names. *)
Variable tree : node.
Variable log : list string.
Hypothesis tree_named : named tree.
Hypothesis discovered :
  getContractSources (contractsDir options) tree = OK (sources, log).

Local Abbreviation run_inv := (run_inv keccak options sources (λ _, False)).

Lemma run_inv_start (files : gmap string text) (schedule : list (nat * Z)) :
  run_inv (run schedule (compileAll sources files)).
Proof.
  eapply run_inv_run; [done..|]. by apply run_inv_compileAll.
Qed.

(** X14.  A callback that has resolved has left the artifact file of its unit
    up to date, whatever the other callbacks have written since: the file
    holds, for the target of the run, an entry with the digest of the source
    and the requested optimizer flag. *)
Theorem X14_resolved_is_up_to_date (files : gmap string text)
    (schedule : list (nat * Z)) (i : nat) (name source : string) :
  let st := run schedule (compileAll sources files) in
  map_to_list sources !! i = Some (name, source) →
  tasks st !! i = Some Resolved →
  ∃ entry,
    record_entry (fs st !! artifactPath name) (networkId options) = Some entry
    ∧ own_props entry !! "keccak256" = Some (JStr (sourceHashOf source))
    ∧ own_props entry !! "optimizer_enabled" = Some (JNum (optimizerEnabled options)).
Proof.
  intros st Hu Hi.
  destruct (run_inv_start files schedule) as (_ & I1 & _ & _). fold st in I1.
  destruct (I1 _ _ Hi) as (n & s & Hn & Hf). simpl in Hf.
  rewrite Hu in Hn. injection Hn as <- <-. unfold fresh in Hf.
  pose proof (shouldCompile_spec options (fs st !! artifactPath name)
                (sourceHashOf source)) as Hspec.
  destruct (record_entry _ _) as [entry|].
  2:{ simpl in Hspec. destruct Hspec as [_ Hspec]. rewrite Hspec in Hf; done. }
  exists entry. split; [done|]. simpl in Hspec.
  assert (¬ (own_props entry !! "keccak256" ≠ Some (JStr (sourceHashOf source))
             ∨ own_props entry !! "optimizer_enabled"
               ≠ Some (JNum (optimizerEnabled options)))) as Hnot.
  { intros H. apply Hspec in H. congruence. }
  split.
  - destruct (own_props entry !! "keccak256") as [[| | |h| |]|] eqn:Hk;
      try (destruct Hnot; left; congruence).
    destruct (decide (h = sourceHashOf source)) as [->|]; [done|].
    destruct Hnot. left. congruence.
  - destruct (own_props entry !! "optimizer_enabled") as [[| |z| | |]|] eqn:Hk;
      try (destruct Hnot; right; congruence).
    destruct (decide (z = optimizerEnabled options)) as [->|]; [done|].
    destruct Hnot. right. congruence.
Qed.

Lemma step_fs_other (st : state) (i j : nat) (now : Z) (name source : string) :
  run_inv st → j ≠ i →
  map_to_list sources !! i = Some (name, source) →
  fs (step j now st) !! artifactPath name = fs st !! artifactPath name.
Proof.
  intros (_ & I1 & _ & _) Hji Hu.
  destruct (tasks st !! j) as [t|] eqn:Hj; [|unfold step; by rewrite Hj].
  destruct (I1 _ _ Hj) as (n & s & Hn & Ht).
  destruct t as [n' s'|n' path data| |e]; [| |unfold step; by rewrite Hj..].
  - rewrite (step_read _ _ _ _ _ _ _ _ _ _ Hj). cbv zeta.
    destruct (shouldCompile _); [|done].
    by destruct (compile_unit _ _ _ _ _ _ _) as [[errs tr] [data|e]].
  - rewrite (step_write _ _ _ _ _ _ _ _ _ _ _ Hj). simpl.
    destruct Ht as (-> & -> & _). apply lookup_insert_ne.
    by eapply (other_path options sources tree log tree_named discovered j i).
Qed.

Lemma step_same (st st' : state) (i : nat) (now : Z) (name source : string) :
  run_inv st →
  map_to_list sources !! i = Some (name, source) →
  tasks st !! i = tasks st' !! i →
  fs st !! artifactPath name = fs st' !! artifactPath name →
  tasks (step i now st) !! i = tasks (step i now st') !! i
  ∧ fs (step i now st) !! artifactPath name = fs (step i now st') !! artifactPath name.
Proof.
  intros (_ & I1 & _ & _) Hu Htask Hfs.
  destruct (tasks st !! i) as [t|] eqn:Hi.
  2:{ unfold step. rewrite Hi, <- Htask. split; [congruence|done]. }
  symmetry in Htask.
  destruct (I1 _ _ Hi) as (n & s & Hn & Ht).
  rewrite Hu in Hn. injection Hn as <- <-.
  pose proof (lookup_lt_Some _ _ _ Hi) as Hlt.
  pose proof (lookup_lt_Some _ _ _ Htask) as Hlt'.
  destruct t as [n' s'|n' path data| |e].
  - destruct Ht as [-> ->].
    rewrite (step_read _ _ _ _ _ _ _ _ _ _ Hi), (step_read _ _ _ _ _ _ _ _ _ _ Htask).
    cbv zeta. rewrite <- Hfs.
    destruct (shouldCompile _); simpl.
    2:{ by rewrite !list_lookup_insert_eq. }
    pose proof (compile_unit_result now name source (sourceHashOf source)
      (decide_compile (fs st !! artifactPath name) (sourceHashOf source))
      (errors st) (errors st') (trace st) (trace st')) as Hr.
    destruct (compile_unit _ _ _ _ _ (errors st) _) as [[errs1 tr1] r1].
    destruct (compile_unit _ _ _ _ _ (errors st') _) as [[errs2 tr2] r2].
    simpl in Hr. subst r2.
    destruct r1; simpl; by rewrite !list_lookup_insert_eq.
  - destruct Ht as (-> & -> & _).
    rewrite (step_write _ _ _ _ _ _ _ _ _ _ _ Hi), (step_write _ _ _ _ _ _ _ _ _ _ _ Htask).
    simpl. by rewrite !list_lookup_insert_eq, !lookup_insert_eq.
  - unfold step. rewrite Hi, Htask. split; [congruence|done].
  - unfold step. rewrite Hi, Htask. split; [congruence|done].
Qed.

(** X15.  The callbacks of a run do not interfere: whatever the order of the
    turns, the callback of a unit ends as, and its artifact file holds what,
    they would with the turns of the other callbacks left out. *)
Theorem X15_units_do_not_interfere (files : gmap string text)
    (schedule : list (nat * Z)) (i : nat) (name source : string) :
  let st := run schedule (compileAll sources files) in
  let alone := run (filter (λ turn, turn.1 = i) schedule) (compileAll sources files) in
  map_to_list sources !! i = Some (name, source) →
  tasks st !! i = tasks alone !! i
  ∧ fs st !! artifactPath name = fs alone !! artifactPath name.
Proof.
  intros st alone Hu. subst st alone.
  assert (∀ prefix st',
    tasks (run prefix (compileAll sources files)) !! i = tasks st' !! i →
    fs (run prefix (compileAll sources files)) !! artifactPath name
      = fs st' !! artifactPath name →
    tasks (run schedule (run prefix (compileAll sources files))) !! i
      = tasks (run (filter (λ turn, turn.1 = i) schedule) st') !! i
    ∧ fs (run schedule (run prefix (compileAll sources files))) !! artifactPath name
      = fs (run (filter (λ turn, turn.1 = i) schedule) st') !! artifactPath name)
    as Hsim.
  { induction schedule as [|[j now] schedule IH]; intros prefix st' Htask Hfs; [done|].
    pose proof (run_inv_start files prefix) as Hinv.
    specialize (IH (prefix ++ [(j, now)])).
    assert (∀ st, run (prefix ++ [(j, now)]) st = step j now (run prefix st)) as Happ
      by (intros; unfold run; by rewrite foldl_app).
    rewrite Happ in IH.
    change (run ((j, now) :: schedule) (run prefix (compileAll sources files)))
      with (run schedule (step j now (run prefix (compileAll sources files)))).
    rewrite filter_cons. cbn [fst]. case_decide as Hji.
    - subst j. simpl. apply IH;
        by eapply (step_same _ _ _ _ name source Hinv Hu).
    - apply IH.
      + by rewrite step_tasks_other.
      + by rewrite (step_fs_other _ i j now name source Hinv). }
  by apply (Hsim []).
Qed.


End MoreRuns.

(** *** Writes and invocations *)

Lemma saved_app (tr tr' : list event) : saved (tr ++ tr') = saved tr ++ saved tr'.
Proof. apply omap_app. Qed.

Lemma report_saved (msgs : list string) (errs : gset string) (tr : list event) :
  saved (report msgs errs tr).1.2 = saved tr.
Proof.
  revert errs tr. induction msgs as [|m msgs IH]; intros errs tr; simpl; [done|].
  destruct (getNormalizedErrMsg m); [|done].
  case_decide; rewrite IH; [done|]. by rewrite saved_app, app_nil_r.
Qed.

Lemma compile_unit_saved (now : Z) (name source sourceHash : string)
    (lc : locals) (errs : gset string) (tr : list event) :
  saved (compile_unit now name source sourceHash lc errs tr).1.2 = saved tr.
Proof.
  unfold compile_unit.
  destruct select_backend as [[solcVersion solcBin]|e]; simpl; [|done].
  assert (saved (tr ++ [Compiling name; Invoked name]) = saved tr) as Htr
    by (by rewrite saved_app, app_nil_r).
  destruct (compiled_errors _) as [msgs|]; [|done].
  pose proof (report_saved msgs errs (tr ++ [Compiling name; Invoked name])) as H.
  destruct (report _ _ _) as [[errs1 tr1] r]. simpl in *. by rewrite H.
Qed.

(** X20.  A run writes an artifact file only for a unit it has handed to the
    backend: every unit logged as saved was compiled in this run, and a run
    that logs no unit as saved leaves every file as it was. *)
Theorem X20_saved_after_invocation (files : gmap string text)
    (schedule : list (nat * Z)) :
  let st := run schedule (compileAll sources files) in
  (∀ name, name ∈ saved (trace st) → name ∈ invocations (trace st))
  ∧ (saved (trace st) = [] → fs st = files).
Proof.
  set (inv := λ st : state,
    (∀ name, name ∈ saved (trace st) → name ∈ invocations (trace st))
    ∧ (∀ i name path data, tasks st !! i = Some (AwaitWrite name path data) →
         name ∈ invocations (trace st))
    ∧ (saved (trace st) = [] → fs st = files)).
  assert (∀ st j now, inv st → inv (step j now st)) as Hstep.
  { intros st j now (I1 & I2 & I3).
    destruct (tasks st !! j) as [t|] eqn:Hj; [|unfold step; by rewrite Hj].
    destruct t as [n s|n path data| |e]; [| |unfold step; by rewrite Hj..].
    - rewrite (step_read _ _ _ _ _ _ _ _ _ _ Hj). cbv zeta.
      destruct (shouldCompile _).
      2:{ split; [done|]. split; [|done]. intros i name path data. simpl.
          rewrite list_lookup_insert. case_decide; [done|]. apply I2. }
      pose proof (compile_unit_invocations binPaths require options sources now n s
        (sourceHashOf s) (decide_compile (fs st !! artifactPath n) (sourceHashOf s))
        (errors st) (trace st)) as Hinv.
      pose proof (compile_unit_saved now n s (sourceHashOf s)
        (decide_compile (fs st !! artifactPath n) (sourceHashOf s))
        (errors st) (trace st)) as Hsaved.
      destruct (compile_unit _ _ _ _ _ _ _) as [[errs tr] r] eqn:Hc.
      simpl in Hinv, Hsaved.
      assert (inv (State (fs st) errs tr
        (<[j := match r with
                | OK data => AwaitWrite n (artifactPath n) data
                | Throw e => Rejected e
                end]> (tasks st)))) as Hr; [|by destruct r].
      split; [|split]; simpl.
      + intros name. rewrite Hsaved, Hinv. intros Hin.
        apply elem_of_app. left. by apply I1.
      + intros i name path data. rewrite list_lookup_insert. case_decide as Hd.
        * destruct r as [data'|e]; [|done]. intros [= <- _ _].
          apply compile_unit_OK in Hc as (v & b & _ & _ & Hsel & _).
          rewrite Hinv, Hsel. apply elem_of_app. right.
          by apply list_elem_of_singleton.
        * intros Hi. rewrite Hinv. apply elem_of_app. left. by eapply I2.
      + by rewrite Hsaved.
    - rewrite (step_write _ _ _ _ _ _ _ _ _ _ _ Hj).
      split; [|split]; simpl.
      + intros name. rewrite saved_app, invocations_app, app_nil_r. simpl.
        intros [Hin| ->%list_elem_of_singleton]%elem_of_app; [by apply I1|].
        by eapply I2.
      + intros i name path' data'. rewrite invocations_app, app_nil_r.
        rewrite list_lookup_insert. case_decide; [done|]. apply I2.
      + rewrite saved_app. simpl. by intros [_ ?]%app_eq_nil. }
  assert (∀ st, inv st → inv (run schedule st)) as Hrun.
  { induction schedule as [|[j now] schedule IH]; intros st Hst; [done|].
    simpl. by apply IH, Hstep. }
  destruct (Hrun (compileAll sources files)) as (I1 & _ & I3); [|done].
  split; [|split]; simpl.
  - intros name Hin. by apply elem_of_nil in Hin.
  - intros i name path data. rewrite list_lookup_fmap.
    by destruct (map_to_list sources !! i).
  - done.
Qed.

Lemma report_error (msgs : list string) (errs : gset string) (tr : list event)
    (e : error) :
  (report msgs errs tr).2 = Throw e → e = NoPathInMessage.
Proof.
  revert errs tr. induction msgs as [|m msgs IH]; intros errs tr; simpl; [done|].
  destruct (getNormalizedErrMsg m) as [n|e0] eqn:Hm.
  - case_decide; apply IH.
  - apply getNormalizedErrMsg_Throw in Hm as ->. by intros [= <-].
Qed.

(** X21.  When the backend has no output under the identifier of the unit,
    the file name, a colon and the name without the extension, the callback
    ends with an exception after the backend was invoked: no artifact is
    written, and what the console received stays. *)
Theorem X21_unit_without_output (st : state) (i : nat) (now : Z)
    (name source solcVersion : string) (solcBin : Backend) :
  tasks st !! i = Some (AwaitRead name source) →
  shouldCompile (decide_compile (fs st !! artifactPath name) (sourceHashOf source)) = true →
  select_backend source = OK (solcVersion, solcBin) →
  (∀ outputs,
     compiled_contracts (solcBin {[name := source]} (optimizerEnabled options)
                           (createFindImports sources)) = Some outputs →
     outputs !! (name +:+ ":" +:+ basename_ext name ".sol") = None) →
  ∃ e, tasks (step i now st) !! i = Some (Rejected e)
    ∧ (e = TypeError ∨ e = NoPathInMessage)
    ∧ (∀ now', step i now' (step i now st) = step i now st)
    ∧ fs (step i now st) = fs st
    ∧ invocations (trace (step i now st)) = invocations (trace st) ++ [name].
Proof.
  intros Hi Hstale Hsel Hnone.
  pose proof (lookup_lt_Some _ _ _ Hi) as Hlt.
  rewrite (step_read _ _ _ _ _ _ _ _ _ _ Hi). cbv zeta. rewrite Hstale.
  pose proof (compile_unit_invocations binPaths require options sources now name source
    (sourceHashOf source)
    (decide_compile (fs st !! artifactPath name) (sourceHashOf source))
    (errors st) (trace st)) as Hinv. rewrite Hsel in Hinv.
  destruct (compile_unit _ _ _ _ _ _ _) as [[errs tr] [data|e]] eqn:Hc.
  { apply compile_unit_entry in Hc
      as (v & b & outputs & output & abi & Hsel' & Hout & Hlook & _).
    rewrite Hsel in Hsel'. injection Hsel' as <- <-.
    by rewrite (Hnone _ Hout) in Hlook. }
  exists e. simpl in *. rewrite list_lookup_insert_eq by done.
  split; [done|]. split; [|split; [|done]].
  - unfold compile_unit in Hc. rewrite Hsel in Hc.
    assert (∀ lc, build_artifact options now name (sourceHashOf source) solcVersion
              (solcBin {[name := source]} (optimizerEnabled options)
                 (createFindImports sources)) lc = Throw TypeError) as Hbuild.
    { intros lc. unfold build_artifact.
      destruct (compiled_contracts _) as [outputs|] eqn:Hout; simpl; [|done].
      by rewrite (Hnone outputs). }
    destruct (compiled_errors _) as [msgs|].
    + destruct (report _ _ _) as [[errs1 tr1] [[]|e1]] eqn:Hr; simpl in Hc.
      * rewrite Hbuild in Hc. injection Hc as _ _ <-. by left.
      * injection Hc as _ _ <-. right.
        eapply (report_error msgs _ _ e1). by rewrite Hr.
    + simpl in Hc. rewrite Hbuild in Hc. injection Hc as _ _ <-. by left.
  - intros now'. unfold step at 1. simpl. by rewrite list_lookup_insert_eq.
Qed.

End MoreProperties.

Lemma X9_sample :
  ∃ merged fields,
    sample_written = JsonText merged
    ∧ byTarget merged 50 = Some (JObj fields)
    ∧ fields !! "keccak256" = Some (JStr ("0x" +:+ sample_source))
    ∧ fields !! "optimizer_enabled" = Some (JNum 0)
    ∧ fields !! "solc_version" = Some (JStr "4.11.0")
    ∧ fields !! "updated_at" = Some (JNum 7).
Proof.
  destruct (X9_written_entry sample_keccak sample_binPaths sample_require
              sample_options sample_sources (compileAll sample_sources sample_files)
              0 7 "Foo.sol" sample_source "artifacts/Foo.json" sample_written)
    as (merged & v & b & outputs & output & abi & Hd & _ & _ & Hv & _ & _ & _ & He & _);
    [reflexivity | vm_compute; reflexivity |].
  assert (v = "4.11.0") as -> by (vm_compute in Hv; congruence).
  eexists merged, _. split; [done|]. split; [exact He|].
  repeat split; by vm_compute.
Defined.

(** ** The declaration the version is read from *)

Lemma exec_lit_app (l rest : list ascii) : exec (lit l) (l ++ rest) = [([], rest)].
Proof.
  induction l as [|c l IH]; simpl; [done|].
  rewrite Ascii.eqb_refl. simpl. by rewrite IH.
Qed.

Lemma exec_Seq_head (r1 r2 : regex) (s s1 s2 : list ascii) (c2 : captures)
    (l1 l2 : list (captures * list ascii)) :
  exec r1 s = ([], s1) :: l1 → exec r2 s1 = (c2, s2) :: l2 →
  ∃ l, exec (Seq r1 r2) s = (c2, s2) :: l.
Proof.
  intros H1 H2. cbn [exec]. unfold seq_results. rewrite H1. cbn [flat_map fst snd].
  rewrite H2. by eexists.
Qed.

(** The quantifier [[0-9]{1,2}] is greedy: of the digits at the head of the
    input it takes the first two when there are two. *)
Lemma exec_digits_head (l rest : list ascii) :
  Forall (λ c, is_digit c = true) l → l ≠ [] →
  (∀ c rest', rest = c :: rest' → is_digit c = false) →
  ∃ tl, exec (Quant (Class is_digit) 1 2) (l ++ rest) = ([], drop 2 l ++ rest) :: tl.
Proof.
  intros Hl Hne Hrest. destruct Hl as [|a l Ha Hl]; [done|].
  destruct Hl as [|b l Hb Hl]; simpl; rewrite Ha; simpl.
  - destruct rest as [|c rest']; simpl; [eauto|].
    rewrite (Hrest c rest' eq_refl). simpl. eauto.
  - rewrite Hb. simpl. eauto.
Qed.

Lemma exec_caret_head (caret rest : list ascii) :
  caret = [] ∨ caret = ["^"%char] →
  (∀ rest', rest ≠ "^"%char :: rest') →
  ∃ tl, exec (Quant (Lit "^") 0 1) (caret ++ rest) = ([], rest) :: tl.
Proof.
  intros [->| ->] Hrest; [|by eexists].
  destruct rest as [|c rest']; [by eexists|].
  rewrite exec_Quant. cbn [app exec].
  destruct (Ascii.eqb_spec "^" c) as [<-|]; [by destruct (Hrest rest')|].
  by eexists.
Qed.

Lemma exec_dot (rest : list ascii) : exec (Lit ".") ("."%char :: rest) = [([], rest)].
Proof. done. Qed.

Lemma drop_digits12 (l : list ascii) : digits12 l → drop 2 l = [] ∧ l ≠ [].
Proof.
  intros [[H|H] _]; destruct l as [|a [|b [|c l]]]; simpl in *; try lia; done.
Qed.

Lemma exec_version_token_head (major minor patch after : list ascii) :
  digits12 major → digits12 minor →
  Forall (λ c, is_digit c = true) patch → patch ≠ [] →
  (∀ c rest, after = c :: rest → is_digit c = false) →
  ∃ tl, exec version_token (major ++ "."%char :: minor ++ "."%char :: patch ++ after)
        = ([], drop 2 patch ++ after) :: tl.
Proof.
  intros Dmaj Dmin Dpat Hne Hafter.
  destruct (drop_digits12 _ Dmaj) as [Hmaj Hmaj'].
  destruct (drop_digits12 _ Dmin) as [Hmin Hmin'].
  destruct (exec_digits_head patch after Dpat Hne Hafter) as [l5 H5].
  destruct (exec_Seq_head (Lit ".") (Quant (Class is_digit) 1 2) _ _ _ _ _ _
              (exec_dot (patch ++ after)) H5) as [l4 H4].
  destruct (exec_digits_head minor ("."%char :: patch ++ after) (proj2 Dmin) Hmin')
    as [l3 H3]; [by intros c rest' [= <- _]|].
  rewrite Hmin in H3. cbn [app] in H3.
  destruct (exec_Seq_head _ _ _ _ _ _ _ _ H3 H4) as [l3' H3'].
  destruct (exec_Seq_head (Lit ".") _ _ _ _ _ _ _
              (exec_dot (minor ++ "."%char :: patch ++ after)) H3') as [l2 H2].
  destruct (exec_digits_head major ("."%char :: minor ++ "."%char :: patch ++ after)
              (proj2 Dmaj) Hmaj') as [l1 H1]; [by intros c rest' [= <- _]|].
  rewrite Hmaj in H1. cbn [app] in H1.
  destruct (exec_Seq_head _ _ _ _ _ _ _ _ H1 H2) as [l0 H0].
  by exists l0.
Qed.

Lemma exec_version_regex_head (space : ascii)
    (caret major minor patch after : list ascii) :
  is_space space = true → caret = [] ∨ caret = ["^"%char] →
  digits12 major → digits12 minor →
  Forall (λ c, is_digit c = true) patch → patch ≠ [] →
  (∀ c rest, after = c :: rest → is_digit c = false) →
  ∃ tl, exec version_regex
          (chars "solidity" ++ space :: caret
             ++ major ++ "."%char :: minor ++ "."%char :: patch ++ after)
        = ([major ++ "."%char :: minor ++ "."%char :: take 2 patch],
           drop 2 patch ++ after) :: tl.
Proof.
  intros Hspace Hcaret Dmaj Dmin Dpat Hne Hafter.
  set (token := major ++ "."%char :: minor ++ "."%char :: patch ++ after).
  destruct (exec_version_token_head major minor patch after) as [l1 H1]; [done..|].
  fold token in H1.
  assert (token = (major ++ "."%char :: minor ++ "."%char :: take 2 patch)
                    ++ drop 2 patch ++ after) as Htoken.
  { unfold token. rewrite <- (take_drop 2 patch) at 1.
    rewrite <- !app_assoc. simpl. by rewrite <- !app_assoc. }
  assert (∃ l, exec (Group version_token) token
             = ([major ++ "."%char :: minor ++ "."%char :: take 2 patch],
                drop 2 patch ++ after) :: l) as [l2 H2].
  { rewrite exec_Group, H1. simpl. rewrite (take_matched _ _ _ Htoken). eauto. }
  destruct (exec_caret_head caret token Hcaret) as [l3 H3].
  { intros rest' H. destruct (drop_digits12 _ Dmaj) as [_ Hmaj'].
    destruct Dmaj as [_ Dmaj]. destruct Dmaj as [|c major Hc _]; [done|].
    unfold token in H. injection H as -> _. done. }
  assert (exec (Class is_space) (space :: caret ++ token) = [([], caret ++ token)])
    as H4 by (simpl; by rewrite Hspace).
  destruct (exec_Seq_head _ _ _ _ _ _ _ _ H4 H3) as [l5 H5].
  destruct (exec_Seq_head _ _ _ _ _ _ _ _
              (exec_lit_app (chars "solidity") (space :: caret ++ token)) H5)
    as [l6 H6].
  destruct (exec_Seq_head _ _ _ _ _ _ _ _ H6 H2) as [l7 H7].
  exists l7. unfold version_regex. exact H7.
Qed.

Lemma search_skip (r : regex) (before s : list ascii) (i : nat) :
  (∀ k, k < length before → exec r (drop k (before ++ s)) = []) →
  search r (before ++ s) i = search r s (i + length before).
Proof.
  revert i. induction before as [|a before IH]; intros i Hnone; simpl.
  { by rewrite Nat.add_0_r. }
  pose proof (Hnone 0 ltac:(simpl; lia)) as H0. simpl in H0.
  change (search r (a :: before ++ s) i)
    with (match exec r (a :: before ++ s) with
          | (caps, rest) :: _ =>
              Some (MatchArray i (take (length (a :: before ++ s) - length rest)
                                    (a :: before ++ s)) caps)
          | [] => search r (before ++ s) (S i)
          end).
  rewrite H0, IH.
  - f_equal. lia.
  - intros k Hk. apply (Hnone (S k)). simpl. lia.
Qed.

Lemma parse_first_declaration (source : string) (space : ascii)
    (before caret major minor patch after : list ascii) :
  chars source = before ++ chars "solidity" ++ space :: caret
                   ++ major ++ "."%char :: minor ++ "."%char :: patch ++ after →
  is_space space = true →
  caret = [] ∨ caret = ["^"%char] →
  digits12 major → digits12 minor →
  Forall (λ c, is_digit c = true) patch → patch ≠ [] →
  (∀ c rest, after = c :: rest → is_digit c = false) →
  (∀ b d a v, chars source = b ++ d ++ a → is_declaration d v →
     length before ≤ length b) →
  parseSolidityVersion source
  = OK (text_of (major ++ "."%char :: minor ++ "."%char :: take 2 patch)).
Proof.
  intros Hs Hspace Hcaret Dmaj Dmin Dpat Hne Hafter Hfirst.
  destruct (exec_version_regex_head space caret major minor patch after)
    as [tl Hhead]; [done..|].
  unfold parseSolidityVersion, str_match. rewrite Hs at 1.
  rewrite search_skip.
  - by rewrite (search_head _ _ _ _ _ _ Hhead).
  - intros k Hk. rewrite <- Hs.
    destruct (exec version_regex (drop k (chars source))) as [|[caps rest] l] eqn:He;
      [done|].
    destruct (exec_sound version_regex (drop k (chars source)) caps rest)
      as (w & Hw & (v & Hd & _)%lang_version_regex); [rewrite He; by left|].
    pose proof (Hfirst (take k (chars source)) w rest v) as Hle.
    rewrite <- Hw, take_drop in Hle. specialize (Hle eq_refl Hd).
    rewrite length_take in Hle. lia.
Qed.

(** X16.  The version is read from the first declaration of the source, and
    greedily: a caret is skipped, and of the digits of the patch component
    the first two are kept, whatever follows them. *)
Theorem X16_first_declaration_greedy (source : string) (space : ascii)
    (before caret major minor patch after : list ascii) :
  chars source = before ++ chars "solidity" ++ space :: caret
                   ++ major ++ "."%char :: minor ++ "."%char :: patch ++ after →
  is_space space = true →
  caret = [] ∨ caret = ["^"%char] →
  digits12 major → digits12 minor →
  Forall (λ c, is_digit c = true) patch → patch ≠ [] →
  (∀ c rest, after = c :: rest → is_digit c = false) →
  (∀ b d a v, chars source = b ++ d ++ a → is_declaration d v →
     length before ≤ length b) →
  parseSolidityVersion source
  = OK (text_of (major ++ "."%char :: minor ++ "."%char :: take 2 patch)).
Proof. apply parse_first_declaration. Qed.

(** ** Version extraction *)




Lemma X16_sample : parseSolidityVersion "pragma solidity ^4.11.100;" = OK "4.11.10".
Proof.
  apply (X16_first_declaration_greedy "pragma solidity ^4.11.100;" " "
           (chars "pragma ") ["^"%char] (chars "4") (chars "11") (chars "100")
           (chars ";")).
  - reflexivity.
  - reflexivity.
  - by right.
  - split; [by left|by repeat constructor].
  - split; [by right|by repeat constructor].
  - by repeat constructor.
  - done.
  - by intros c rest [= <- _].
  - intros b d a v H (sp & caret & -> & _). simpl in H.
    do 7 (destruct b as [|? b]; [discriminate H|]). simpl. lia.
Defined.

(** X17.  A source whose only declaration has a major or a minor component of
    three digits or more has no version: the callback of the unit ends with
    the error of the missing version. *)
Theorem X17_long_major_or_minor (source : string) (major minor patch : list ascii) :
  sole_declaration source major minor patch →
  major ≠ [] → minor ≠ [] →
  Forall (λ c, is_digit c = true) major → Forall (λ c, is_digit c = true) minor →
  3 ≤ length major ∨ 3 ≤ length minor →
  parseSolidityVersion source = Throw VersionNotFound.
Proof. apply long_major_or_minor. Qed.

(** ** Imports of discovered sources *)

Lemma is_sol_name_file_name (name : string) : is_sol_name name → is_file_name name.
Proof.
  intros (stem & -> & [Hne Hs]%is_file_name_chars). split.
  - intros H. apply (f_equal chars) in H. rewrite chars_app in H.
    by apply app_eq_nil in H as [_ ?].
  - rewrite chars_app. apply Forall_app. split; [done|apply no_slash_sol].
Qed.

(** X18.  Every source that discovery finds can be imported, from any
    directory: the callback of the backend resolves an import path that ends
    with the name of a discovered file to the text of that file. *)
Theorem X18_discovered_sources_importable (dirPath : string) (dir : node)
    (sources : gmap string string) (log : list string)
    (name source prefix : string) :
  named dir →
  getContractSources dirPath dir = OK (sources, log) →
  sources !! name = Some source →
  contents (createFindImports sources (prefix +:+ "/" +:+ name)) = Some (Text source)
  ∧ contents (createFindImports sources name) = Some (Text source).
Proof.
  intros Hnamed Hget Hs.
  assert (is_file_name name) as Hname.
  { apply is_sol_name_file_name. eapply getContractSources_named; eauto. }
  unfold createFindImports, findImports, read_source. simpl.
  by rewrite basename_dir, basename_name, Hs.
Qed.

Lemma X18_sample :
  contents (createFindImports nested_sources "./lib/B.sol") = Some (Text "contract B {}").
Proof.
  apply (X18_discovered_sources_importable "contracts" nested_tree nested_sources
           ["Reading A.sol source..."; "Reading B.sol source..."; "Reading A.sol source...";
            "contracts/README is not a directory or .sol file";
            "Could not find file at contracts/x.sol"]
           "B.sol" "contract B {}" "./lib").
  - simpl. repeat split; try done; by repeat constructor.
  - by vm_compute.
  - by vm_compute.
Defined.

(** ** The further properties on the sample projects *)


Lemma X8_sample :
  tasks (pathless_step 0 7 (compileAll sample_sources ∅)) !! 0
  = Some (Rejected NoPathInMessage).
Proof.
  destruct (X8_message_without_path_ends_callback sample_keccak sample_binPaths
              (λ _, Some pathless_solc) sample_options sample_sources
              (compileAll sample_sources ∅) 0 7 "Foo.sol" sample_source "4.11.0"
              pathless_solc ["Internal compiler error"] "Internal compiler error")
    as [H _]; [reflexivity | by vm_compute | by vm_compute | by vm_compute
              | by apply list_elem_of_singleton | by vm_compute | exact H].
Defined.


Lemma X11_sample :
  settled (mixed_run [(0, 1%Z); (1, 2%Z); (0, 3%Z); (1, 4%Z)]
             (compileAll mixed_sources ∅)).
Proof.
  apply (X11_run_ends sample_keccak sample_binPaths sample_require sample_options
           mixed_sources ∅ [(0, 1%Z); (1, 2%Z); (0, 3%Z); (1, 4%Z)]).
  intros i Hi. vm_compute in Hi.
  destruct i as [|[|i]]; [vm_compute; lia..|lia].
Defined.

Lemma X12_sample :
  fs (sample_run [(0, 7%Z); (0, 8%Z)]
        (compileAll sample_sources {[ "notes.txt" := OtherText "x" ]})) !! "notes.txt"
  = Some (OtherText "x").
Proof.
  rewrite (X12_other_files_untouched sample_keccak sample_binPaths sample_require
             sample_options sample_sources {[ "notes.txt" := OtherText "x" ]}
             [(0, 7%Z); (0, 8%Z)] "notes.txt"); [done|].
  intros name [source H]. unfold sample_sources in H.
  apply lookup_singleton_Some in H as [<- _]. by vm_compute.
Defined.

Lemma X14_sample :
  let st := sample_run [(0, 7%Z); (0, 8%Z)] (compileAll sample_sources ∅) in
  ∃ entry,
    record_entry (fs st !! artifactPath sample_options "Foo.sol")
      (networkId sample_options) = Some entry
    ∧ own_props entry !! "keccak256" = Some (JStr (sourceHashOf sample_keccak sample_source))
    ∧ own_props entry !! "optimizer_enabled" = Some (JNum (optimizerEnabled sample_options)).
Proof.
  apply (X14_resolved_is_up_to_date sample_keccak sample_binPaths sample_require
           sample_options sample_sources sample_tree ["Reading Foo.sol source..."]
           ltac:(by repeat constructor) ltac:(by vm_compute)
           ∅ [(0, 7%Z); (0, 8%Z)] 0 "Foo.sol" sample_source).
  - reflexivity.
  - by vm_compute.
Defined.

Lemma X15_sample :
  let path := artifactPath sample_options "Foo.sol" in
  tasks (mixed_run [(1, 1%Z); (0, 2%Z); (1, 3%Z); (0, 4%Z)]
           (compileAll mixed_sources ∅)) !! 0
  = tasks (mixed_run [(0, 2%Z); (0, 4%Z)] (compileAll mixed_sources ∅)) !! 0
  ∧ fs (mixed_run [(1, 1%Z); (0, 2%Z); (1, 3%Z); (0, 4%Z)]
          (compileAll mixed_sources ∅)) !! path
    = fs (mixed_run [(0, 2%Z); (0, 4%Z)] (compileAll mixed_sources ∅)) !! path.
Proof.
  apply (X15_units_do_not_interfere sample_keccak sample_binPaths sample_require
           sample_options mixed_sources mixed_tree
           ["Reading Baz.sol source..."; "Reading Foo.sol source..."]
           ltac:(simpl; repeat split; try done; by repeat constructor)
           ltac:(by vm_compute)
           ∅ [(1, 1%Z); (0, 2%Z); (1, 3%Z); (0, 4%Z)] 0 "Foo.sol" sample_source).
  by vm_compute.
Defined.


Lemma X21_sample :
  ∃ e, tasks (failing_step 0 7 (compileAll failing_sources ∅)) !! 0 = Some (Rejected e)
    ∧ invocations (trace (failing_step 0 7 (compileAll failing_sources ∅)))
      = ["Imports.sol"].
Proof.
  destruct (X21_unit_without_output sample_keccak sample_binPaths sample_require
              sample_options failing_sources (compileAll failing_sources ∅) 0 7
              "Imports.sol" "pragma solidity ^4.11.0; import './Foo.sol';"
              "4.11.0" sample_solc)
    as (e & He & _ & _ & _ & Hinv).
  - reflexivity.
  - by vm_compute.
  - by vm_compute.
  - intros outputs H. vm_compute in H. injection H as <-. by vm_compute.
  - exists e. split; [exact He|exact Hinv].
Defined.

Lemma X17_sample : parseSolidityVersion "pragma solidity ^4.110.0;" = Throw VersionNotFound.
Proof.
  apply (X17_long_major_or_minor "pragma solidity ^4.110.0;"
           (chars "4") (chars "110") (chars "0")).
  - exists (chars "pragma "), " "%char, ["^"%char], (chars ";").
    split; [reflexivity|]. split; [by right|].
    intros b a H. simpl in H.
    do 7 (destruct b as [|? b]; [discriminate H|]; injection H as <- H).
    destruct b as [|c b]; [reflexivity|]. exfalso.
    repeat (injection H as _ H; destruct b as [|? b]; [discriminate H|]; simpl in H).
    discriminate H.
  - done.
  - done.
  - by repeat constructor.
  - by repeat constructor.
  - right. simpl. lia.
Defined.
